(** * ProbabilityMap: a log-odds occupancy grid

    Shallow embedding of [mapping::ProbabilityMap]
    (src/aslam_demo/mapping/probability_map.cpp).

    Number model.  A C++ [double] is modelled by a real number: [std::exp],
    [std::log], [std::sqrt], [std::fabs] and [std::floor] are the functions
    of the same name over the reals.  Rounding, infinities and NaN are
    outside this model, so every statement below is about the arithmetic the
    code asks for, not about its IEEE-754 rounding.  [int] and [size_t] are
    modelled by [Z] and [nat]: index arithmetic is assumed not to overflow.
    An unsigned subtraction goes below zero in two places: [cols() - 2] at
    [cols() = 1] in [interpolate] is converted back to [int] by the
    assignment and yields [-1], the value [Z] subtraction gives; the
    offsets of the kernel of [smooth] stay unsigned, and there the 64-bit
    wrap-around is written out.

    The further properties are stated on what the code itself compares and
    stores (log-odds against log-odds, integer cell indices, orderings that
    are not strict), so that they do not rest on an exact identity of real
    arithmetic.

    Effects.  A [const] member function is a function of the map; a member
    that throws returns a [result]; the mutating member [update] is a state
    transformer that returns the map it leaves behind also when it
    throws. *)

From Stdlib Require Import Reals Lra Lia ZArith List Bool.
From Stdlib Require Import Sorted.
Import ListNotations.
Open Scope R_scope.

(** ** Numbers *)

(** [std::floor], still a [double]. *)
Definition floor (x : R) : R := IZR (Int_part x).

(** Conversion of a [double] to [int]: truncation toward zero. *)
Definition to_int (x : R) : Z :=
  if Rle_dec 0 x then Int_part x else (- Int_part (- x))%Z.

(** Conversion of an [int] to [double]. *)
Definition to_double (z : Z) : R := IZR z.

(** ** gtsam::Point2 (the operations the map uses) *)

Module Point2.

Record t : Type := mk { x : R; y : R }.

(** [p + q] *)
Definition add (p q : t) : t := mk (x p + x q) (y p + y q).
(** [p - q] *)
Definition sub (p q : t) : t := mk (x p - x q) (y p - y q).
(** [s * p] *)
Definition scale (s : R) (p : t) : t := mk (s * x p) (s * y p).
(** [p / s] *)
Definition div (p : t) (s : R) : t := mk (x p / s) (y p / s).
(** [p.norm()] *)
Definition norm (p : t) : R := sqrt (x p * x p + y p * y p).
(** [p.unit()] *)
Definition unit (p : t) : t := div p (norm p).
(** [p.between(q)] *)
Definition between (p q : t) : t := sub q p.

End Point2.

(** ** gtsam::Matrix: a dense matrix of doubles

    A matrix is its two dimensions and its coefficients; the stored cells
    are the coefficients at the indices inside the dimensions. *)

Module Matrix.

Record t : Type := mk { rows : nat; cols : nat; coeff : Z -> Z -> R }.

(** [Matrix::Zero(rows, cols)] *)
Definition Zero (r c : nat) : t := mk r c (fun _ _ => 0).

(** [Matrix_(rows, cols, data)]: the coefficients read from a row-major
    buffer. *)
Definition Matrix_ (r c : nat) (data : list R) : t :=
  mk r c (fun i j => nth (Z.to_nat (i * Z.of_nat c + j)) data 0).

(** [m(i, j) = v] *)
Definition set (m : t) (i j : Z) (v : R) : t :=
  mk (rows m) (cols m)
     (fun i' j' => if (Z.eqb i' i && Z.eqb j' j)%bool then v else coeff m i' j').

End Matrix.

(** ** Exceptions *)

(** The only exception the map throws: the [std::runtime_error] whose
    message is "Requested map coordinates (row,col) is not within the map
    bounds."; it carries the two numbers of the message. *)
Inductive exception : Type :=
| OutOfBounds (row col : R).

Inductive result (A : Type) : Type :=
| Ok (a : A)
| Throw (e : exception).
Arguments Ok {A} a.
Arguments Throw {A} e.

Definition bind {A B : Type} (r : result A) (k : A -> result B) : result B :=
  match r with
  | Ok a => k a
  | Throw e => Throw e
  end.

Notation "x <- r ;; k" := (bind r (fun x => k))
  (at level 61, r at next level, right associativity).

Definition throws {A : Type} (r : result A) : Prop :=
  exists e, r = Throw e.

(** ** The map *)

Record ProbabilityMap : Type := mkMap {
  data_ : Matrix.t;
  origin_ : Point2.t;
  cell_size_ : R
}.

Definition MAX_LOG_ODDS : R := 50.0.

(** The constructor. *)
Definition new (rows cols : nat) (cell_size : R) (origin : Point2.t)
  : ProbabilityMap :=
  mkMap (Matrix.Zero rows cols) origin cell_size.

(** [rows()] and [cols()]: the dimensions of [data_]. *)
Definition rows (m : ProbabilityMap) : nat := Matrix.rows (data_ m).
Definition cols (m : ProbabilityMap) : nat := Matrix.cols (data_ m).

(** [load]: the cells are replaced by the buffer, unchecked. *)
Definition load (m : ProbabilityMap) (data : list R) : ProbabilityMap :=
  mkMap (Matrix.Matrix_ (rows m) (cols m) data) (origin_ m) (cell_size_ m).

Definition clear (m : ProbabilityMap) : ProbabilityMap :=
  mkMap (Matrix.Zero (rows m) (cols m)) (origin_ m) (cell_size_ m).

Definition toWorld (m : ProbabilityMap) (map_coordinates : Point2.t)
  : Point2.t :=
  Point2.add (Point2.scale (cell_size_ m) map_coordinates) (origin_ m).

Definition fromWorld (m : ProbabilityMap) (world_coordinates : Point2.t)
  : Point2.t :=
  Point2.div (Point2.sub world_coordinates (origin_ m)) (cell_size_ m).

(** [inside(int row, int col)]. *)
Definition inside (m : ProbabilityMap) (row col : Z) : bool :=
  (0 <=? row)%Z && (row <? Z.of_nat (rows m))%Z
  && (0 <=? col)%Z && (col <? Z.of_nat (cols m))%Z.

(** Modelled from the spec: the overload [inside(const Point2&)] is declared
    in the header, which is not among the sources.  The spec gives it as the
    continuous test with the same boundary rule applied to the point's
    components: [0 <= y < rows] and [0 <= x < cols]. *)
Definition inside_point (m : ProbabilityMap) (p : Point2.t) : bool :=
  (if Rle_dec 0 (Point2.y p) then true else false)
  && (if Rlt_dec (Point2.y p) (INR (rows m)) then true else false)
  && (if Rle_dec 0 (Point2.x p) then true else false)
  && (if Rlt_dec (Point2.x p) (INR (cols m)) then true else false).

Definition LogOddsToProbability (log_odds : R) : R :=
  let odds := exp log_odds in
  let probability := odds / (1.0 + odds) in
  probability.

Definition ProbabilityToLogOdds (probability : R) : R :=
  let odds := probability / (1.0 - probability) in
  let log_odds := ln odds in
  log_odds.

(** [at(int row, int col)]. *)
Definition at_ (m : ProbabilityMap) (row col : Z) : result R :=
  if negb (inside m row col) then
    Throw (OutOfBounds (to_double row) (to_double col))
  else
    Ok (LogOddsToProbability (Matrix.coeff (data_ m) row col)).

(** [update]: the result of the call and the map it leaves behind. *)
Definition update (m : ProbabilityMap) (row col : Z) (probability : R)
  : result unit * ProbabilityMap :=
  if negb (inside m row col) then
    (Throw (OutOfBounds (to_double row) (to_double col)), m)
  else
    let d := data_ m in
    let d := Matrix.set d row col
               (Matrix.coeff d row col + ProbabilityToLogOdds probability) in
    let d := if Rlt_dec MAX_LOG_ODDS (Matrix.coeff d row col)
             then Matrix.set d row col MAX_LOG_ODDS else d in
    let d := if Rlt_dec (Matrix.coeff d row col) (- MAX_LOG_ODDS)
             then Matrix.set d row col (- MAX_LOG_ODDS) else d in
    (Ok tt, mkMap d (origin_ m) (cell_size_ m)).

(** [interpolate].  The four calls of [at] are taken from left to right;
    C++ leaves the order of the two calls inside one statement open, which
    can only change which of two OutOfBounds exceptions is the one
    thrown. *)
Definition interpolate (m : ProbabilityMap) (map_coordinates : Point2.t)
  : result R :=
  let px := Point2.x map_coordinates in
  let py := Point2.y map_coordinates in
  if negb (inside_point m map_coordinates) then Throw (OutOfBounds py px)
  else
    let x1 := to_int (floor px) in
    let '(x1, x2) :=
      if (Z.of_nat (cols m) - 1 <=? x1)%Z
      then ((Z.of_nat (cols m) - 2)%Z, (Z.of_nat (cols m) - 1)%Z)
      else (x1, (x1 + 1)%Z) in
    let y1 := to_int (floor py) in
    let '(y1, y2) :=
      if (Z.of_nat (rows m) - 1 <=? y1)%Z
      then ((Z.of_nat (rows m) - 2)%Z, (Z.of_nat (rows m) - 1)%Z)
      else (y1, (y1 + 1)%Z) in
    let dx21 := to_double (x2 - x1) in
    let dx2p := to_double x2 - px in
    let dxp1 := px - to_double x1 in
    let dy21 := to_double (y2 - y1) in
    let dy2p := to_double y2 - py in
    let dyp1 := py - to_double y1 in
    a11 <- at_ m y1 x1 ;;
    a12 <- at_ m y1 x2 ;;
    let R1 := (dx2p / dx21) * a11 + (dxp1 / dx21) * a12 in
    a21 <- at_ m y2 x1 ;;
    a22 <- at_ m y2 x2 ;;
    let R2 := (dx2p / dx21) * a21 + (dxp1 / dx21) * a22 in
    Ok ((dy2p / dy21) * R1 + (dyp1 / dy21) * R2).

(** [findIntersections].  For a beam along an axis the code divides by a
    zero direction component and relies on the infinities of IEEE-754; the
    points computed here are then not the code's, and no statement below
    reads them. *)
Definition findIntersections
    (start_point end_point lower_left upper_right : Point2.t)
  : Point2.t * Point2.t :=
  let direction := Point2.unit (Point2.between start_point end_point) in
  let direction_inverse :=
    Point2.mk (1.0 / Point2.x direction) (1.0 / Point2.y direction) in
  let t1 := (Point2.x lower_left - Point2.x start_point)
            * Point2.x direction_inverse in
  let t2 := (Point2.x upper_right - Point2.x start_point)
            * Point2.x direction_inverse in
  let t3 := (Point2.y lower_left - Point2.y start_point)
            * Point2.y direction_inverse in
  let t4 := (Point2.y upper_right - Point2.y start_point)
            * Point2.y direction_inverse in
  let tmin := Rmax (Rmin t1 t2) (Rmin t3 t4) in
  let tmax := Rmin (Rmax t1 t2) (Rmax t3 t4) in
  (Point2.add start_point (Point2.scale tmin direction),
   Point2.add start_point (Point2.scale tmax direction)).

(** ** Line rasterisation *)

(** [LineCell]: a cell the line crosses and the two points where the line
    enters and leaves it ([end_] is the field [end]). *)
Record LineCell : Type := mkLineCell {
  row : Z;
  col : Z;
  start : Point2.t;
  end_ : Point2.t
}.

(** Steps (a) and (b) of the loop of [line]: the cell of the current point,
    pushed when it is inside the map. *)
Definition line_cell (m : ProbabilityMap)
    (start_point_world end_point_world point : Point2.t) : list LineCell :=
  let u := floor (Point2.x point) in
  let v := floor (Point2.y point) in
  if inside m (to_int v) (to_int u) then
    let box_min := toWorld m (Point2.mk u v) in
    let box_max := toWorld m (Point2.mk (u + 1) (v + 1)) in
    let intersections :=
      findIntersections start_point_world end_point_world box_min box_max in
    [ mkLineCell (to_int v) (to_int u)
                 (fst intersections) (snd intersections) ]
  else [].

(** The [while(true)] loop of [line]; one unit of [fuel] per iteration, and
    [None] when the fuel runs out before the loop breaks. *)
Fixpoint line_loop (m : ProbabilityMap)
    (start_point_world end_point_world delta : Point2.t)
    (fuel : nat) (cells : list LineCell)
    (point : Point2.t) (increments_remaining : R)
  : option (list LineCell) :=
  match fuel with
  | O => None
  | S fuel' =>
      let cells :=
        cells ++ line_cell m start_point_world end_point_world point in
      if Rle_dec increments_remaining 0 then Some cells
      else
        let increment :=
          if Rlt_dec increments_remaining 1.0
          then increments_remaining else 1.0 in
        line_loop m start_point_world end_point_world delta fuel' cells
          (Point2.add point (Point2.scale increment delta))
          (increments_remaining - increment)
  end.

(** Step (1) of [line]: the start point in map coordinates, the line
    increment and the distance along the dominant direction. *)
Definition line_setup (m : ProbabilityMap)
    (start_point_world end_point_world : Point2.t)
  : Point2.t * Point2.t * R :=
  let start_point_map := fromWorld m start_point_world in
  let end_point_map := fromWorld m end_point_world in
  let dx := Rabs (Point2.x end_point_map - Point2.x start_point_map) in
  let sx :=
    if Rlt_dec (Point2.x start_point_map) (Point2.x end_point_map)
    then 1%Z else (-1)%Z in
  let dy := Rabs (Point2.y end_point_map - Point2.y start_point_map) in
  let sy :=
    if Rlt_dec (Point2.y start_point_map) (Point2.y end_point_map)
    then 1%Z else (-1)%Z in
  if Rlt_dec dy dx then
    (start_point_map,
     Point2.mk (to_double sx) (to_double sy * (dy / dx)), dx)
  else
    (start_point_map,
     Point2.mk (to_double sx * (dx / dy)) (to_double sy), dy).

(** [line], with the fuel of its loop. *)
Definition line (fuel : nat) (m : ProbabilityMap)
    (start_point_world end_point_world : Point2.t)
  : option (list LineCell) :=
  let '(start_point_map, delta, increments_remaining) :=
    line_setup m start_point_world end_point_world in
  line_loop m start_point_world end_point_world delta fuel []
    start_point_map increments_remaining.

(** ** Raster export *)

(** [occupancyGrid()]: the two loops over a zero matrix; the [(int)] cast
    truncates and the assignment converts back to [double]. *)
Definition occupancyGrid (m : ProbabilityMap) : Matrix.t :=
  fold_left
    (fun occupancy row =>
       fold_left
         (fun occupancy col =>
            Matrix.set occupancy (Z.of_nat row) (Z.of_nat col)
              (to_double
                 (to_int
                    (255 - 255.0 * LogOddsToProbability
                             (Matrix.coeff (data_ m)
                                (Z.of_nat row) (Z.of_nat col))))))
         (seq 0 (cols m)) occupancy)
    (seq 0 (rows m))
    (Matrix.Zero (rows m) (cols m)).

(** The two nested loops over the cells, writing [F row col] at each
    cell of the rows [rs] and the columns [cs]. *)
Definition fill_row (F : Z -> Z -> R) (row : nat) (cs : list nat)
    (occupancy : Matrix.t) : Matrix.t :=
  fold_left
    (fun occupancy col =>
       Matrix.set occupancy (Z.of_nat row) (Z.of_nat col)
                  (F (Z.of_nat row) (Z.of_nat col)))
    cs occupancy.

Definition fill (F : Z -> Z -> R) (rs cs : list nat) (occupancy : Matrix.t)
  : Matrix.t :=
  fold_left (fun occupancy row => fill_row F row cs occupancy) rs occupancy.

(** The grey value [occupancyGrid] writes at a cell. *)
Definition grey (m : ProbabilityMap) (row col : Z) : R :=
  to_double
    (to_int (255 - 255.0 * LogOddsToProbability
                             (Matrix.coeff (data_ m) row col))).

(** An index is one of the loop indices [ns]. *)
Definition among (z : Z) (ns : list nat) : bool :=
  existsb (fun n => Z.eqb z (Z.of_nat n)) ns.

(** ** Vocabulary of the statements *)

(** Every stored log-odds value lies in [[-MAX_LOG_ODDS, +MAX_LOG_ODDS]]. *)
Definition cells_in_range (m : ProbabilityMap) : Prop :=
  forall r c : Z, inside m r c = true ->
    - MAX_LOG_ODDS <= Matrix.coeff (data_ m) r c <= MAX_LOG_ODDS.

(** A sequence of calls [update(row, col, probability)], each applied to
    the map the previous one left behind. *)
Definition updates (m : ProbabilityMap) (calls : list (Z * Z * R))
  : ProbabilityMap :=
  fold_left (fun m call => snd (update m (fst (fst call)) (snd (fst call))
                                         (snd call)))
            calls m.

(** Two maps store the same cells, origin and cell size. *)
Definition same_map (m m' : ProbabilityMap) : Prop :=
  rows m' = rows m /\ cols m' = cols m
  /\ origin_ m' = origin_ m /\ cell_size_ m' = cell_size_ m
  /\ forall r c : Z,
       Matrix.coeff (data_ m') r c = Matrix.coeff (data_ m) r c.

(** The least integer not below [x]. *)
Definition ceil (x : R) : Z := (- Int_part (- x))%Z.



(** The [k]-th point of a walk of length [remaining] from [point] along
    [delta]: whole steps, and a last step that consumes what is left. *)
Definition line_point (point delta : Point2.t) (remaining : R) (k : nat)
  : Point2.t :=
  Point2.add point (Point2.scale (Rmin (INR k) remaining) delta).

(** The start point, the increment and the dominant-axis length [line]
    computes before its loop. *)
Definition line_start (m : ProbabilityMap) (sw ew : Point2.t) : Point2.t :=
  fst (fst (line_setup m sw ew)).
Definition line_delta (m : ProbabilityMap) (sw ew : Point2.t) : Point2.t :=
  snd (fst (line_setup m sw ew)).
Definition line_length (m : ProbabilityMap) (sw ew : Point2.t) : R :=
  snd (line_setup m sw ew).

(** The number of steps that consume the dominant-axis length. *)
Definition line_steps (m : ProbabilityMap) (sw ew : Point2.t) : nat :=
  Z.to_nat (ceil (line_length m sw ew)).

(** The points of the full walk: the start point and one point per step. *)
Definition line_walk (m : ProbabilityMap) (sw ew : Point2.t)
  : list Point2.t :=
  map (line_point (line_start m sw ew) (line_delta m sw ew)
                  (line_length m sw ew))
      (seq 0 (S (line_steps m sw ew))).


(** The integer cell of a point of the walk, as (row, col). *)
Definition cell_of (p : Point2.t) : Z * Z :=
  (to_int (floor (Point2.y p)), to_int (floor (Point2.x p))).

(** The (row, col) of a line cell. *)
Definition cell_index (cl : LineCell) : Z * Z := (row cl, col cl).

(** ** The maps of the scenarios *)

Definition origin0 : Point2.t := Point2.mk 0 0.

(** Scenario A: 3x3, cell size 1. *)
Definition map3 : ProbabilityMap := new 3 3 1 origin0.

(** Scenario C: 10x10, cell size 0.1. *)
Definition map10 : ProbabilityMap := new 10 10 0.1 origin0.

(** A map of a single cell. *)
Definition map1 : ProbabilityMap := new 1 1 1 origin0.

(** A 1x2 map loaded with a log-odds value above the bound. *)
Definition map_loaded : ProbabilityMap := load (new 1 2 1 origin0) [100; 0].


(** A beam that starts two cells left of the 3x3 map and ends in its last
    column. *)
Definition beam_start : Point2.t := Point2.mk (-1.5) 0.5.
Definition beam_end : Point2.t := Point2.mk 2.5 0.5.

(** ** The rest of the map's operations *)

(** [points]: the map coordinates (col, row) of the cells whose log-odds
    exceed that of the threshold, pushed in the order of the scan. *)
Definition points (m : ProbabilityMap) (threshold : R) : list Point2.t :=
  let log_odds_threshold := ProbabilityToLogOdds threshold in
  fold_left
    (fun points row =>
       fold_left
         (fun points col =>
            if Rlt_dec log_odds_threshold
                 (Matrix.coeff (data_ m) (Z.of_nat row) (Z.of_nat col))
            then points ++ [Point2.mk (INR col) (INR row)]
            else points)
         (seq 0 (cols m)) points)
    (seq 0 (rows m))
    [].

(** Conversion of a [double] to [unsigned char]: the truncated value, taken
    modulo 256. *)
Definition to_unsigned_char (x : R) : Z := (to_int x mod 256)%Z.

(** The raw data loop of [occupancyGrid(filename)]: the samples written
    after the header of the image, one byte per cell. *)
Definition pgm_samples (m : ProbabilityMap) : list Z :=
  let occupancy := occupancyGrid m in
  fold_left
    (fun image row =>
       fold_left
         (fun image col =>
            image ++ [to_unsigned_char
                        (Matrix.coeff occupancy
                           (Z.of_nat row) (Z.of_nat col))])
         (seq 0 (cols m)) image)
    (seq 0 (rows m))
    [].

(** *** The kernel of smooth

    [smooth] builds a one-dimensional kernel and hands it to [conv2d],
    which is not among the sources; the kernel is modelled, the convolution
    is not.  The kernel is indexed in [size_t], and its loop subtracts in
    [size_t]: here the unsigned arithmetic is written out, [size_t] being
    64 bits wide. *)

Definition size_t_modulus : Z := 2 ^ 64.

(** Conversion of a [double] to [size_t]. *)
Definition to_size_t (x : R) : Z := (to_int x mod size_t_modulus)%Z.

(** [size_t kernel_length = 2*std::floor(3.0*map_sigma) + 1]. *)
Definition kernel_length (m : ProbabilityMap) (sigma : R) : Z :=
  let map_sigma := sigma / cell_size_ m in
  to_size_t (2 * floor (3.0 * map_sigma) + 1).

(** [double x = i - (kernel_length - 1)/2], computed in [size_t]. *)
Definition kernel_offset (length i : Z) : R :=
  to_double ((i - ((length - 1) mod size_t_modulus) / 2)
             mod size_t_modulus)%Z.

(** The value stored in [kernel_1d(i)] for the offset [x]. *)
Definition kernel_tap (sigma x : R) : R :=
  1.0 / (sigma * sqrt (2 * PI)) * exp ((x * x) / (sigma * sigma)).

(** The kernel [smooth] fills before it convolves. *)
Definition smooth_kernel (m : ProbabilityMap) (sigma : R) : list R :=
  let length := kernel_length m sigma in
  map (fun i => kernel_tap sigma (kernel_offset length (Z.of_nat i)))
      (seq 0 (Z.to_nat length)).

(** ** Vocabulary of the further statements *)

(** The value [update] stores for a sum [s] of log-odds. *)
Definition clamp (s : R) : R :=
  if Rlt_dec MAX_LOG_ODDS s then MAX_LOG_ODDS
  else if Rlt_dec s (- MAX_LOG_ODDS) then - MAX_LOG_ODDS else s.


(** The cells of the map in the order of a row-major scan. *)
Definition scan (m : ProbabilityMap) : list (nat * nat) :=
  flat_map (fun row => map (fun col => (row, col)) (seq 0 (cols m)))
           (seq 0 (rows m)).

(** * Properties *)

(** ** Numbers *)

Lemma Int_part_IZR (z : Z) : Int_part (IZR z) = z.
Proof. symmetry; apply Int_part_spec; lra. Qed.

Lemma to_int_IZR (z : Z) : to_int (IZR z) = z.
Proof.
  unfold to_int. destruct (Rle_dec 0 (IZR z)) as [_|_].
  - apply Int_part_IZR.
  - rewrite <- opp_IZR, Int_part_IZR. lia.
Qed.

Lemma to_int_floor (x : R) : to_int (floor x) = Int_part x.
Proof. apply to_int_IZR. Qed.

Lemma Int_part_bounds (x : R) : IZR (Int_part x) <= x < IZR (Int_part x) + 1.
Proof. destruct (base_Int_part x). lra. Qed.

Lemma Int_part_eq (x : R) (z : Z) : IZR z <= x < IZR z + 1 -> Int_part x = z.
Proof. intros H. symmetry; apply Int_part_spec; lra. Qed.

Lemma ceil_bounds (x : R) : IZR (ceil x) - 1 < x <= IZR (ceil x).
Proof.
  unfold ceil. rewrite opp_IZR. destruct (Int_part_bounds (- x)). lra.
Qed.

Lemma to_int_nonneg (x : R) : 0 <= x -> to_int x = Int_part x.
Proof. intros H. unfold to_int. destruct (Rle_dec 0 x); [reflexivity|lra]. Qed.

(** ** Bounds test *)

Lemma inside_iff (m : ProbabilityMap) (row col : Z) :
  inside m row col = true
  <-> (0 <= row < Z.of_nat (rows m))%Z /\ (0 <= col < Z.of_nat (cols m))%Z.
Proof. unfold inside. rewrite !andb_true_iff. lia. Qed.

Lemma inside_point_iff (m : ProbabilityMap) (p : Point2.t) :
  inside_point m p = true
  <-> 0 <= Point2.y p < INR (rows m) /\ 0 <= Point2.x p < INR (cols m).
Proof.
  unfold inside_point. rewrite !andb_true_iff.
  destruct (Rle_dec 0 (Point2.y p)), (Rlt_dec (Point2.y p) (INR (rows m))),
           (Rle_dec 0 (Point2.x p)), (Rlt_dec (Point2.x p) (INR (cols m)));
    intuition (try discriminate; try lra).
Qed.

(** ** Matrix coefficients *)

Lemma coeff_set_same (d : Matrix.t) (i j : Z) (v : R) :
  Matrix.coeff (Matrix.set d i j v) i j = v.
Proof. simpl. rewrite !Z.eqb_refl. reflexivity. Qed.

Lemma coeff_set_other (d : Matrix.t) (i j i' j' : Z) (v : R) :
  (i', j') <> (i, j) ->
  Matrix.coeff (Matrix.set d i j v) i' j' = Matrix.coeff d i' j'.
Proof.
  intros H. simpl.
  destruct (Z.eqb_spec i' i), (Z.eqb_spec j' j); simpl; try reflexivity.
  subst. contradiction H. reflexivity.
Qed.

Lemma coeff_set (d : Matrix.t) (i j i' j' : Z) (v : R) :
  Matrix.coeff (Matrix.set d i j v) i' j'
  = if (Z.eqb i' i && Z.eqb j' j)%bool then v else Matrix.coeff d i' j'.
Proof. reflexivity. Qed.

(** ** update *)

(** The value [update] leaves in the cell it is applied to. *)
Lemma update_cell (m : ProbabilityMap) (row col : Z) (p : R) :
  inside m row col = true ->
  Matrix.coeff (data_ (snd (update m row col p))) row col
  = let s := Matrix.coeff (data_ m) row col + ProbabilityToLogOdds p in
    if Rlt_dec MAX_LOG_ODDS s then MAX_LOG_ODDS
    else if Rlt_dec s (- MAX_LOG_ODDS) then - MAX_LOG_ODDS else s.
Proof.
  intros Hin. unfold update. rewrite Hin. cbn [negb snd data_].
  rewrite coeff_set_same.
  set (s := Matrix.coeff (data_ m) row col + ProbabilityToLogOdds p).
  cbv zeta. unfold MAX_LOG_ODDS.
  destruct (Rlt_dec 50.0 s) as [Hhi|Hhi].
  - rewrite coeff_set_same.
    match goal with
    | |- context [Rlt_dec ?a ?b] => destruct (Rlt_dec a b) as [H|_]
    end; [lra|apply coeff_set_same].
  - rewrite coeff_set_same.
    match goal with
    | |- context [Rlt_dec ?a ?b] => destruct (Rlt_dec a b)
    end; apply coeff_set_same.
Qed.

(** [update] writes no other cell. *)
Lemma update_frame (m : ProbabilityMap) (row col r c : Z) (p : R) :
  (r, c) <> (row, col) ->
  Matrix.coeff (data_ (snd (update m row col p))) r c
  = Matrix.coeff (data_ m) r c.
Proof.
  intros Hne. unfold update.
  destruct (inside m row col); cbn [negb snd data_]; [|reflexivity].
  repeat match goal with
         | |- context [Rlt_dec ?a ?b] => destruct (Rlt_dec a b)
         end;
    repeat rewrite (coeff_set_other _ _ _ _ _ _ Hne); reflexivity.
Qed.

(** [update] keeps the dimensions, the origin and the cell size. *)
Lemma update_shape (m : ProbabilityMap) (row col : Z) (p : R) :
  rows (snd (update m row col p)) = rows m
  /\ cols (snd (update m row col p)) = cols m
  /\ origin_ (snd (update m row col p)) = origin_ m
  /\ cell_size_ (snd (update m row col p)) = cell_size_ m.
Proof.
  unfold update, rows, cols.
  destruct (inside m row col); cbn [negb snd data_ origin_ cell_size_];
    [|auto].
  repeat match goal with
         | |- context [Rlt_dec ?a ?b] => destruct (Rlt_dec a b)
         end; auto.
Qed.

Lemma update_inside_ok (m : ProbabilityMap) (row col : Z) (p : R) :
  inside m row col = true -> fst (update m row col p) = Ok tt.
Proof. intros H. unfold update. rewrite H. reflexivity. Qed.

Lemma inside_update (m : ProbabilityMap) (row col r c : Z) (p : R) :
  inside (snd (update m row col p)) r c = inside m r c.
Proof.
  destruct (update_shape m row col p) as (Hr & Hc & _).
  unfold inside. rewrite Hr, Hc. reflexivity.
Qed.

(** C8: [update] on a cell outside the bounds throws OutOfBounds and
    leaves the map (every cell, the origin and the cell size) as it was. *)
Theorem update_out_of_bounds_atomic (m : ProbabilityMap) (row col : Z) (p : R) :
  inside m row col = false ->
  update m row col p
  = (Throw (OutOfBounds (to_double row) (to_double col)), m).
Proof. intros H. unfold update. rewrite H. reflexivity. Qed.

Lemma update_out_of_bounds_atomic_witness :
  inside map3 3 0 = false
  /\ update map3 3 0 0.9 = (Throw (OutOfBounds 3 0), map3).
Proof.
  split; [reflexivity|].
  apply (update_out_of_bounds_atomic map3 3 0 0.9). reflexivity.
Defined.

(** ** Log-odds conversions *)

Lemma ProbabilityToLogOdds_half : ProbabilityToLogOdds 0.5 = 0.
Proof.
  unfold ProbabilityToLogOdds. cbv zeta.
  replace (0.5 / (1.0 - 0.5)) with 1 by lra. apply ln_1.
Qed.

Lemma LogOddsToProbability_0 : LogOddsToProbability 0 = 0.5.
Proof. unfold LogOddsToProbability. cbv zeta. rewrite exp_0. lra. Qed.

Lemma LogOddsToProbability_range (l : R) : 0 < LogOddsToProbability l < 1.
Proof.
  unfold LogOddsToProbability. cbv zeta.
  pose proof (exp_pos l) as H. split.
  - apply Rdiv_lt_0_compat; lra.
  - apply (Rmult_lt_reg_r (1.0 + exp l)); [lra|]. field_simplify; lra.
Qed.

Lemma LogOddsToProbability_gt_half (l : R) :
  0 < l -> 0.5 < LogOddsToProbability l.
Proof.
  intros H. unfold LogOddsToProbability. cbv zeta.
  pose proof (exp_increasing 0 l H) as He. rewrite exp_0 in He.
  apply (Rmult_lt_reg_r (1.0 + exp l)); [lra|]. field_simplify; lra.
Qed.

(** C10: [update] with probability 0.5 on an in-bounds cell whose log-odds
    lies in [[-50, 50]] succeeds and changes no cell, nor the origin or the
    cell size. *)
Theorem update_half_identity (m : ProbabilityMap) (row col : Z) :
  inside m row col = true ->
  - MAX_LOG_ODDS <= Matrix.coeff (data_ m) row col <= MAX_LOG_ODDS ->
  fst (update m row col 0.5) = Ok tt
  /\ same_map m (snd (update m row col 0.5)).
Proof.
  intros Hin Hrange. split; [apply update_inside_ok; assumption|].
  destruct (update_shape m row col 0.5) as (Hr & Hc & Ho & Hs).
  unfold same_map. repeat split; try assumption.
  intros r c.
  destruct (Z.eq_dec r row) as [->|Hr'];
    [destruct (Z.eq_dec c col) as [->|Hc']|].
  - rewrite update_cell by assumption. cbv zeta.
    rewrite ProbabilityToLogOdds_half, Rplus_0_r.
    destruct (Rlt_dec MAX_LOG_ODDS (Matrix.coeff (data_ m) row col)); [lra|].
    destruct (Rlt_dec (Matrix.coeff (data_ m) row col) (- MAX_LOG_ODDS));
      [lra|reflexivity].
  - apply update_frame. congruence.
  - apply update_frame. congruence.
Qed.

Lemma update_half_identity_witness :
  fst (update map3 1 1 0.5) = Ok tt
  /\ same_map map3 (snd (update map3 1 1 0.5)).
Proof.
  apply (update_half_identity map3 1 1); [reflexivity|].
  simpl. unfold MAX_LOG_ODDS. lra.
Defined.

(** ** The saturation bound *)

Lemma new_in_range (r c : nat) (cell_size : R) (origin : Point2.t) :
  cells_in_range (new r c cell_size origin).
Proof. intros i j _. simpl. unfold MAX_LOG_ODDS. lra. Qed.

Lemma clear_in_range (m : ProbabilityMap) : cells_in_range (clear m).
Proof. intros i j _. simpl. unfold MAX_LOG_ODDS. lra. Qed.

(** Whatever the cell held, [update] leaves it within the bound. *)
Lemma update_cell_in_range (m : ProbabilityMap) (row col : Z) (p : R) :
  inside m row col = true ->
  - MAX_LOG_ODDS
  <= Matrix.coeff (data_ (snd (update m row col p))) row col
  <= MAX_LOG_ODDS.
Proof.
  intros Hin. rewrite update_cell by assumption. cbv zeta.
  unfold MAX_LOG_ODDS.
  repeat match goal with
         | |- context [Rlt_dec ?a ?b] => destruct (Rlt_dec a b)
         end; lra.
Qed.

(** C1, as stated, fails: a log-odds value above the bound that [load] put
    in one cell is still there after an in-bounds [update] of another
    cell with probability 0.5. *)
Lemma loaded_value_survives_update :
  inside map_loaded 0 1 = true /\ 0 < 0.5 < 1
  /\ inside (updates map_loaded [(0%Z, 1%Z, 0.5)]) 0 0 = true
  /\ Matrix.coeff (data_ (updates map_loaded [(0%Z, 1%Z, 0.5)])) 0 0 = 100
  /\ ~ cells_in_range (updates map_loaded [(0%Z, 1%Z, 0.5)]).
Proof.
  assert (Hv : Matrix.coeff (data_ (updates map_loaded [(0%Z, 1%Z, 0.5)])) 0 0
               = 100).
  { unfold updates. cbn [fold_left fst snd].
    rewrite update_frame by congruence. reflexivity. }
  assert (Hin : inside (updates map_loaded [(0%Z, 1%Z, 0.5)]) 0 0 = true).
  { unfold updates. cbn [fold_left fst snd].
    rewrite inside_update. reflexivity. }
  split; [reflexivity|]. split; [lra|]. split; [exact Hin|].
  split; [exact Hv|].
  intros H. specialize (H 0%Z 0%Z Hin).
  rewrite Hv in H. unfold MAX_LOG_ODDS in H. lra.
Qed.

(** C1, amended: on a map whose stored log-odds all lie in [[-50, 50]]
    (a constructed or cleared map is one), after each call of any sequence
    of [update] calls with 0 < probability < 1, every stored log-odds value
    lies in [[-50, 50]]. *)
Theorem updates_keep_range (m : ProbabilityMap) (calls : list (Z * Z * R))
    (k : nat) :
  cells_in_range m ->
  Forall (fun call => 0 < snd call < 1) calls ->
  cells_in_range (updates m (firstn k calls)).
Proof.
  intros Hm _. revert m Hm.
  induction (firstn k calls) as [|[[row col] p] prefix IH]; intros m Hm.
  - exact Hm.
  - cbn [updates fold_left fst snd]. apply IH.
    intros r c Hin. rewrite inside_update in Hin.
    destruct (Z.eq_dec r row) as [->|Hr];
      [destruct (Z.eq_dec c col) as [->|Hc]|].
    + apply update_cell_in_range. exact Hin.
    + rewrite update_frame by congruence. apply Hm. exact Hin.
    + rewrite update_frame by congruence. apply Hm. exact Hin.
Qed.

Lemma updates_keep_range_witness :
  cells_in_range (updates map3 (firstn 2 [(1%Z, 1%Z, 0.9); (0%Z, 2%Z, 0.2)])).
Proof.
  apply (updates_keep_range map3 [(1%Z, 1%Z, 0.9); (0%Z, 2%Z, 0.2)] 2).
  - apply new_in_range.
  - repeat constructor; simpl; lra.
Defined.

(** ** Scenario A *)

Lemma inside_new (r c : nat) (cell_size : R) (origin : Point2.t) (i j : Z) :
  inside (new r c cell_size origin) i j = true
  <-> (0 <= i < Z.of_nat r)%Z /\ (0 <= j < Z.of_nat c)%Z.
Proof. apply inside_iff. Qed.

Lemma at_new (r c : nat) (cell_size : R) (origin : Point2.t) (i j : Z) :
  inside (new r c cell_size origin) i j = true ->
  at_ (new r c cell_size origin) i j = Ok 0.5.
Proof.
  intros H. unfold at_. rewrite H. cbn [negb]. f_equal.
  apply LogOddsToProbability_0.
Qed.

Lemma ProbabilityToLogOdds_pos (p : R) :
  0.5 < p < 1 -> 0 < ProbabilityToLogOdds p.
Proof.
  intros [Hlo Hhi]. unfold ProbabilityToLogOdds. cbv zeta.
  rewrite <- ln_1. apply ln_increasing; [lra|].
  apply (Rmult_lt_reg_r (1.0 - p)); [lra|]. field_simplify; lra.
Qed.

(** C7: on the 3x3 map every cell starts at probability 0.5; after
    [update(1,1,0.9)] the cell (1,1) reads above 0.5 and every other
    in-bounds cell still reads exactly 0.5. *)
Theorem scenario_A (r c : Z) :
  inside map3 r c = true ->
  at_ map3 r c = Ok 0.5
  /\ fst (update map3 1 1 0.9) = Ok tt
  /\ (exists p, at_ (snd (update map3 1 1 0.9)) 1 1 = Ok p /\ 0.5 < p)
  /\ ((r, c) <> (1%Z, 1%Z) -> at_ (snd (update map3 1 1 0.9)) r c = Ok 0.5).
Proof.
  intros Hin. split; [apply at_new; exact Hin|].
  split; [reflexivity|]. split.
  - eexists. split.
    + unfold at_. rewrite inside_update. reflexivity.
    + apply LogOddsToProbability_gt_half.
      rewrite update_cell by reflexivity. cbv zeta.
      pose proof (ProbabilityToLogOdds_pos 0.9 ltac:(lra)) as Hpos.
      change (Matrix.coeff (data_ map3) 1 1) with 0.
      unfold MAX_LOG_ODDS.
      repeat match goal with
             | |- context [Rlt_dec ?a ?b] => destruct (Rlt_dec a b)
             end; lra.
  - intros Hne. unfold at_. rewrite inside_update, Hin. cbn [negb].
    rewrite update_frame by exact Hne. f_equal.
    apply LogOddsToProbability_0.
Qed.

Lemma scenario_A_witness :
  inside map3 0 2 = true
  /\ at_ (snd (update map3 1 1 0.9)) 0 2 = Ok 0.5.
Proof.
  split; [reflexivity|].
  apply (scenario_A 0 2 eq_refl). congruence.
Defined.

(** ** Bounds-checked access *)

Lemma at_inside (m : ProbabilityMap) (row col : Z) :
  inside m row col = true ->
  at_ m row col = Ok (LogOddsToProbability (Matrix.coeff (data_ m) row col)).
Proof. intros H. unfold at_. rewrite H. reflexivity. Qed.

Lemma at_outside (m : ProbabilityMap) (row col : Z) :
  inside m row col = false ->
  at_ m row col = Throw (OutOfBounds (to_double row) (to_double col)).
Proof. intros H. unfold at_. rewrite H. reflexivity. Qed.

(** [at] throws exactly on the cells outside the bounds. *)
Lemma at_throws_iff (m : ProbabilityMap) (row col : Z) :
  throws (at_ m row col) <-> inside m row col = false.
Proof.
  destruct (inside m row col) eqn:H.
  - rewrite at_inside by assumption. split; [intros [e He]|]; discriminate.
  - rewrite at_outside by assumption. split; [reflexivity|].
    intros _. eexists. reflexivity.
Qed.

(** [update] throws exactly on the cells outside the bounds. *)
Lemma update_throws_iff (m : ProbabilityMap) (row col : Z) (p : R) :
  throws (fst (update m row col p)) <-> inside m row col = false.
Proof.
  unfold update. destruct (inside m row col); cbn [negb fst].
  - split; [intros [e He]|]; discriminate.
  - split; [reflexivity|]. intros _. eexists. reflexivity.
Qed.

(** ** interpolate *)

Lemma INR_Z (n : nat) : INR n = IZR (Z.of_nat n).
Proof. apply INR_IZR_INZ. Qed.

Lemma interpolate_outside (m : ProbabilityMap) (p : Point2.t) :
  inside_point m p = false ->
  interpolate m p = Throw (OutOfBounds (Point2.y p) (Point2.x p)).
Proof. intros H. unfold interpolate. rewrite H. reflexivity. Qed.

(** The index [floor] gives for a point that passed the bounds check. *)
Lemma floor_index (n : nat) (v : R) :
  0 <= v < INR n ->
  (0 <= to_int (floor v) < Z.of_nat n)%Z.
Proof.
  intros [Hlo Hhi]. rewrite to_int_floor. rewrite INR_Z in Hhi.
  destruct (Int_part_bounds v) as [Hf1 Hf2]. split.
  - destruct (Z_lt_le_dec (Int_part v) 0) as [Hneg|Hpos]; [|assumption].
    exfalso. assert (H : IZR (Int_part v + 1) <= 0) by (apply IZR_le; lia).
    rewrite plus_IZR in H. lra.
  - apply lt_IZR. lra.
Qed.

(** On a map with a single row or a single column, a point that passes the
    bounds check makes [interpolate] ask [at] for a negative index. *)
Lemma degenerate_inside_throws (m : ProbabilityMap) (p : Point2.t) :
  (rows m < 2 \/ cols m < 2)%nat ->
  inside_point m p = true ->
  exists row col : Z,
    interpolate m p = Throw (OutOfBounds (to_double row) (to_double col))
    /\ (row < 0 \/ col < 0)%Z.
Proof.
  intros Hdeg Hin. pose proof Hin as Hin'.
  apply inside_point_iff in Hin' as [Hy Hx].
  apply floor_index in Hy. apply floor_index in Hx.
  unfold interpolate. rewrite Hin. cbn [negb]. cbv zeta.
  set (fx := to_int (floor (Point2.x p))) in *.
  set (fy := to_int (floor (Point2.y p))) in *.
  destruct (Z.leb_spec (Z.of_nat (cols m) - 1) fx) as [Hcx|Hcx];
    destruct (Z.leb_spec (Z.of_nat (rows m) - 1) fy) as [Hcy|Hcy].
  - (* both axes clamped *)
    exists (Z.of_nat (rows m) - 2)%Z, (Z.of_nat (cols m) - 2)%Z.
    rewrite at_outside by (unfold inside; lia). split; [reflexivity|lia].
  - (* the column pair is clamped, so rows >= 2 and cols = 1 *)
    exists fy, (Z.of_nat (cols m) - 2)%Z.
    rewrite at_outside by (unfold inside; lia). split; [reflexivity|lia].
  - (* the row pair is clamped, so cols >= 2 and rows = 1 *)
    exists (Z.of_nat (rows m) - 2)%Z, fx.
    rewrite at_outside by (unfold inside; lia). split; [reflexivity|lia].
  - (* no clamp needs two rows and two columns *)
    lia.
Qed.

(** C9: on a map with fewer than two rows or fewer than two columns
    [interpolate] throws at every map point; at a point that passes the
    bounds check the exception comes from the inner [at], asked for a
    negative row or column. *)
Theorem interpolate_degenerate (m : ProbabilityMap) (p : Point2.t) :
  (rows m < 2 \/ cols m < 2)%nat ->
  throws (interpolate m p)
  /\ (inside_point m p = true ->
      exists row col : Z,
        interpolate m p = Throw (OutOfBounds (to_double row) (to_double col))
        /\ at_ m row col
           = Throw (OutOfBounds (to_double row) (to_double col))
        /\ (row < 0 \/ col < 0)%Z).
Proof.
  intros Hdeg. split.
  - destruct (inside_point m p) eqn:Hin.
    + destruct (degenerate_inside_throws m p Hdeg Hin)
        as (row & col & H & _).
      eexists. exact H.
    + eexists. apply interpolate_outside. exact Hin.
  - intros Hin.
    destruct (degenerate_inside_throws m p Hdeg Hin)
      as (row & col & H & Hneg).
    exists row, col. split; [exact H|]. split; [|exact Hneg].
    apply at_outside. unfold inside.
    destruct Hneg as [Hneg|Hneg].
    + destruct (Z.leb_spec 0 row); [lia|reflexivity].
    + destruct (Z.leb_spec 0 col); [lia|].
      rewrite andb_false_r. reflexivity.
Qed.

Lemma interpolate_degenerate_witness :
  throws (interpolate map1 origin0).
Proof.
  refine (proj1 (interpolate_degenerate map1 origin0 _)).
  left. unfold rows, map1, new. simpl. apply Nat.lt_succ_diag_r.
Defined.

Lemma inside_point_integer (m : ProbabilityMap) (r c : Z) :
  inside_point m (Point2.mk (to_double c) (to_double r)) = inside m r c.
Proof.
  apply eq_iff_eq_true. rewrite inside_point_iff, inside_iff.
  unfold to_double. cbn [Point2.x Point2.y]. rewrite !INR_Z.
  split; intros [[H1 H2] [H3 H4]].
  - apply le_IZR in H1, H3. apply lt_IZR in H2, H4. lia.
  - repeat split; try (apply IZR_le; lia); apply IZR_lt; lia.
Qed.

(** The blend of two neighbouring samples at the abscissa of the first. *)
Lemma blend_low (x1 x2 : Z) (a1 a2 : R) :
  (x2 - x1 = 1)%Z ->
  ((to_double x2 - to_double x1) / to_double (x2 - x1)) * a1
  + ((to_double x1 - to_double x1) / to_double (x2 - x1)) * a2
  = a1.
Proof.
  intros H. unfold to_double. rewrite <- !minus_IZR, H.
  replace (x1 - x1)%Z with 0%Z by lia. field.
Qed.

(** The blend of two neighbouring samples at the abscissa of the second. *)
Lemma blend_high (x1 x2 : Z) (a1 a2 : R) :
  (x2 - x1 = 1)%Z ->
  ((to_double x2 - to_double x2) / to_double (x2 - x1)) * a1
  + ((to_double x2 - to_double x1) / to_double (x2 - x1)) * a2
  = a2.
Proof.
  intros H. unfold to_double. rewrite <- !minus_IZR, H.
  replace (x2 - x2)%Z with 0%Z by lia. field.
Qed.

(** Interpolation exactness where the map has a 2x2 quartet to offer: on a
    map with at least two rows and two columns, [interpolate] at the
    integer point [(c, r)] of an in-bounds cell returns what [at(r, c)]
    returns, also on the last row and the last column. *)
Lemma interpolate_exact (m : ProbabilityMap) (r c : Z) :
  (2 <= rows m)%nat -> (2 <= cols m)%nat ->
  inside m r c = true ->
  interpolate m (Point2.mk (to_double c) (to_double r)) = at_ m r c.
Proof.
  intros Hrows Hcols Hin. pose proof Hin as Hin'.
  apply inside_iff in Hin' as [Hr Hc].
  rewrite (at_inside m r c Hin). clear Hin.
  unfold interpolate. rewrite inside_point_integer.
  rewrite (proj2 (inside_iff m r c) (conj Hr Hc)).
  cbn [negb Point2.x Point2.y]. cbv zeta.
  unfold to_double at 1 2. rewrite !to_int_floor, !Int_part_IZR.
  destruct (Z.leb_spec (Z.of_nat (cols m) - 1) c) as [Hcx|Hcx];
    [assert (c = Z.of_nat (cols m) - 1)%Z as -> by lia|];
    (destruct (Z.leb_spec (Z.of_nat (rows m) - 1) r) as [Hcy|Hcy];
     [assert (r = Z.of_nat (rows m) - 1)%Z as -> by lia|]);
    repeat (rewrite at_inside by (apply inside_iff; lia));
    cbn [bind]; f_equal;
    repeat first [rewrite blend_low by lia | rewrite blend_high by lia];
    reflexivity.
Qed.

(** On a map with at least two rows and two columns [interpolate] throws
    exactly at the points outside the bounds. *)
Lemma interpolate_throws_iff (m : ProbabilityMap) (p : Point2.t) :
  (2 <= rows m)%nat -> (2 <= cols m)%nat ->
  throws (interpolate m p) <-> inside_point m p = false.
Proof.
  intros Hrows Hcols. split.
  - intros [e He]. destruct (inside_point m p) eqn:Hin; [|reflexivity].
    exfalso. pose proof Hin as Hin'.
    apply inside_point_iff in Hin' as [Hy Hx].
    apply floor_index in Hy. apply floor_index in Hx.
    revert He. unfold interpolate. rewrite Hin. cbn [negb]. cbv zeta.
    destruct (Z.leb_spec (Z.of_nat (cols m) - 1)
                         (to_int (floor (Point2.x p))));
      destruct (Z.leb_spec (Z.of_nat (rows m) - 1)
                           (to_int (floor (Point2.y p))));
      repeat (rewrite at_inside by (apply inside_iff; lia));
      cbn [bind]; discriminate.
  - intros Hout. eexists. apply interpolate_outside. exact Hout.
Qed.

(** On the single-cell map the point (0, 0) passes the bounds check and
    [interpolate] throws from the inner [at(-1, -1)]. *)
Lemma interpolate_single_cell :
  interpolate map1 origin0 = Throw (OutOfBounds (-1) (-1)).
Proof.
  assert (Hin : inside_point map1 origin0 = true).
  { apply inside_point_iff. simpl. lra. }
  unfold interpolate. rewrite Hin. cbn [negb]. cbv zeta.
  rewrite !to_int_floor.
  replace (Int_part (Point2.x origin0)) with 0%Z
    by (symmetry; apply Int_part_eq; simpl; lra).
  replace (Int_part (Point2.y origin0)) with 0%Z
    by (symmetry; apply Int_part_eq; simpl; lra).
  reflexivity.
Qed.

(** C2 at the failing input: on the single-cell map the point (0, 0)
    passes the bounds check, [at(0, 0)] succeeds, and [interpolate] throws
    all the same. *)
Theorem interpolate_throws_inside_bounds :
  inside_point map1 origin0 = true
  /\ inside map1 0 0 = true
  /\ ~ throws (at_ map1 0 0)
  /\ throws (interpolate map1 origin0).
Proof.
  split; [apply inside_point_iff; simpl; lra|].
  split; [reflexivity|]. split.
  - rewrite at_throws_iff. discriminate.
  - eexists. apply interpolate_single_cell.
Qed.

(** C3 at the failing input: on the single-cell map [at(0, 0)] returns
    0.5 while [interpolate] at the integer point (0, 0) returns nothing:
    it throws. *)
Theorem interpolate_not_exact_single_cell :
  inside map1 0 0 = true
  /\ at_ map1 0 0 = Ok 0.5
  /\ interpolate map1 (Point2.mk (to_double 0) (to_double 0))
     = Throw (OutOfBounds (-1) (-1))
  /\ interpolate map1 (Point2.mk (to_double 0) (to_double 0))
     <> at_ map1 0 0.
Proof.
  split; [reflexivity|]. split; [apply at_new; reflexivity|].
  change (Point2.mk (to_double 0) (to_double 0)) with origin0.
  split; [apply interpolate_single_cell|].
  rewrite interpolate_single_cell.
  change (at_ map1 0 0) with (at_ (new 1 1 1 origin0) 0 0).
  rewrite at_new by reflexivity. discriminate.
Qed.

(** ** occupancyGrid *)

Section GridLoops.

Variable F : Z -> Z -> R.

Lemma fill_row_coeff (row : nat) (cs : list nat) :
  forall (occupancy : Matrix.t) (r c : Z),
    Matrix.coeff (fill_row F row cs occupancy) r c
    = if (Z.eqb r (Z.of_nat row) && among c cs)%bool then F r c
      else Matrix.coeff occupancy r c.
Proof.
  induction cs as [|n cs IH]; intros occupancy r c.
  - cbn. rewrite andb_false_r. reflexivity.
  - change (fill_row F row (n :: cs) occupancy)
      with (fill_row F row cs
              (Matrix.set occupancy (Z.of_nat row) (Z.of_nat n)
                          (F (Z.of_nat row) (Z.of_nat n)))).
    rewrite IH, coeff_set.
    change (among c (n :: cs))
      with (Z.eqb c (Z.of_nat n) || among c cs)%bool.
    destruct (Z.eqb_spec r (Z.of_nat row)) as [->|Hr];
      destruct (Z.eqb_spec c (Z.of_nat n)) as [->|Hc];
      cbn [andb orb]; try reflexivity.
    destruct (among (Z.of_nat n) cs); reflexivity.
Qed.

Lemma fill_coeff (rs cs : list nat) :
  forall (occupancy : Matrix.t) (r c : Z),
    Matrix.coeff (fill F rs cs occupancy) r c
    = if (among r rs && among c cs)%bool then F r c
      else Matrix.coeff occupancy r c.
Proof.
  induction rs as [|n rs IH]; intros occupancy r c.
  - reflexivity.
  - change (fill F (n :: rs) cs occupancy)
      with (fill F rs cs (fill_row F n cs occupancy)).
    rewrite IH, fill_row_coeff.
    change (among r (n :: rs))
      with (Z.eqb r (Z.of_nat n) || among r rs)%bool.
    destruct (Z.eqb_spec r (Z.of_nat n)) as [->|Hr]; cbn [andb orb].
    + destruct (among (Z.of_nat n) rs), (among c cs); reflexivity.
    + reflexivity.
Qed.



End GridLoops.

Lemma among_seq (z : Z) (n : nat) :
  among z (seq 0 n) = ((0 <=? z)%Z && (z <? Z.of_nat n)%Z)%bool.
Proof.
  apply eq_iff_eq_true. unfold among.
  rewrite existsb_exists, andb_true_iff, Z.leb_le, Z.ltb_lt. split.
  - intros (k & Hk & Hz). apply in_seq in Hk. apply Z.eqb_eq in Hz. lia.
  - intros [H1 H2]. exists (Z.to_nat z). split.
    + apply in_seq. lia.
    + apply Z.eqb_eq. lia.
Qed.

(** [occupancyGrid] is the two loops writing [grey] over a zero matrix. *)
Lemma occupancyGrid_fill (m : ProbabilityMap) :
  occupancyGrid m
  = fill (grey m) (seq 0 (rows m)) (seq 0 (cols m))
         (Matrix.Zero (rows m) (cols m)).
Proof. reflexivity. Qed.


Lemma occupancyGrid_coeff (m : ProbabilityMap) (r c : Z) :
  inside m r c = true ->
  Matrix.coeff (occupancyGrid m) r c = grey m r c.
Proof.
  intros Hin. rewrite occupancyGrid_fill, fill_coeff, !among_seq.
  unfold inside in Hin. rewrite <- andb_assoc in Hin. rewrite Hin.
  reflexivity.
Qed.

Lemma Int_part_shift (k : Z) (v : R) :
  Int_part (IZR k + v) = (k + Int_part v)%Z.
Proof.
  apply Int_part_eq. rewrite plus_IZR.
  destruct (Int_part_bounds v). lra.
Qed.

(** Truncating 255 - y, for y between 0 and 255, rounds y up. *)
Lemma to_int_255_minus (v : R) :
  0 <= v <= 255 -> to_int (255 - v) = (255 - ceil v)%Z.
Proof.
  intros Hv. rewrite to_int_nonneg by lra. unfold ceil.
  replace (255 - v) with (IZR 255 + - v) by lra.
  rewrite Int_part_shift. lia.
Qed.

Lemma ceil_range (v : R) (lo hi : Z) :
  IZR lo < v <= IZR hi -> (lo < ceil v <= hi)%Z.
Proof.
  intros [Hlo Hhi]. destruct (ceil_bounds v) as [H1 H2]. split.
  - apply lt_IZR. lra.
  - destruct (Z_le_gt_dec (ceil v) hi) as [H|H]; [exact H|exfalso].
    assert (H' : IZR (hi + 1) <= IZR (ceil v)) by (apply IZR_le; lia).
    rewrite plus_IZR in H'. lra.
Qed.

Lemma grey_ceil (m : ProbabilityMap) (r c : Z) :
  grey m r c
  = to_double
      (255 - ceil (255 * LogOddsToProbability (Matrix.coeff (data_ m) r c))).
Proof.
  unfold grey. f_equal.
  pose proof (LogOddsToProbability_range (Matrix.coeff (data_ m) r c)).
  replace 255.0 with 255 by lra.
  apply to_int_255_minus. lra.
Qed.


Lemma ceil_eq (v : R) (z : Z) : IZR z - 1 < v <= IZR z -> ceil v = z.
Proof.
  intros H. unfold ceil.
  rewrite (Int_part_eq (- v) (- z)); [lia|]. rewrite opp_IZR. lra.
Qed.


Lemma ln_lt_id (v : R) : 0 < v -> ln v < v.
Proof.
  intros Hv. rewrite <- (ln_exp v) at 2. apply ln_increasing; [exact Hv|].
  pose proof (exp_ineq1 v ltac:(lra)). lra.
Qed.






(** ** line *)

Lemma Point2_eq (p q : Point2.t) :
  Point2.x p = Point2.x q -> Point2.y p = Point2.y q -> p = q.
Proof. destruct p, q. cbn. intros -> ->. reflexivity. Qed.

Lemma line_point_0 (point delta : Point2.t) (remaining : R) :
  0 <= remaining -> line_point point delta remaining 0 = point.
Proof.
  intros H. unfold line_point. cbn [INR]. rewrite Rmin_left by exact H.
  apply Point2_eq; cbn; ring.
Qed.

(** After a whole step the walk goes on as a walk of the remaining
    length. *)
Lemma line_point_whole_step (point delta : Point2.t) (remaining : R)
    (k : nat) :
  1 <= remaining ->
  line_point point delta remaining (S k)
  = line_point (Point2.add point (Point2.scale 1.0 delta)) delta
               (remaining - 1.0) k.
Proof.
  intros H. unfold line_point. rewrite S_INR.
  assert (Hmin : Rmin (INR k + 1) remaining
                 = 1 + Rmin (INR k) (remaining - 1.0)).
  { unfold Rmin.
    destruct (Rle_dec (INR k + 1) remaining),
             (Rle_dec (INR k) (remaining - 1.0)); lra. }
  rewrite Hmin. apply Point2_eq; cbn; replace 1.0 with 1 by lra; ring.
Qed.

(** A last step shorter than one consumes what remains. *)
Lemma line_point_last_step (point delta : Point2.t) (remaining : R)
    (k : nat) :
  0 <= remaining < 1 ->
  line_point point delta remaining (S k)
  = line_point (Point2.add point (Point2.scale remaining delta)) delta
               (remaining - remaining) k.
Proof.
  intros H. unfold line_point. rewrite S_INR.
  pose proof (pos_INR k) as Hk.
  rewrite Rmin_right by lra.
  replace (remaining - remaining) with 0 by lra.
  rewrite (Rmin_right (INR k) 0) by lra.
  apply Point2_eq; cbn; ring.
Qed.

(** The loop of [line] visits the points of the walk, whatever the map
    bounds are, and pushes the cell of each visited point that is inside
    the map. *)
Lemma line_loop_walk (m : ProbabilityMap) (sw ew delta : Point2.t) :
  forall (n fuel : nat) (cells : list LineCell) (point : Point2.t)
         (remaining : R),
    0 <= remaining <= INR n ->
    (n = 0%nat \/ INR n - 1 < remaining) ->
    (n < fuel)%nat ->
    line_loop m sw ew delta fuel cells point remaining
    = Some (cells
            ++ flat_map (line_cell m sw ew)
                 (map (line_point point delta remaining) (seq 0 (S n)))).
Proof.
  induction n as [|n IH]; intros fuel cells point remaining Hrem Hn Hfuel;
    (destruct fuel as [|fuel]; [lia|]); cbn [line_loop].
  - cbn [INR] in Hrem.
    destruct (Rle_dec remaining 0) as [_|H]; [|lra].
    cbn [seq map flat_map]. rewrite line_point_0 by lra.
    rewrite app_nil_r. reflexivity.
  - destruct Hn as [Hn|Hn]; [discriminate|]. rewrite S_INR in Hrem, Hn.
    pose proof (pos_INR n) as Hpos.
    destruct (Rle_dec remaining 0) as [H|_]; [lra|].
    change (seq 0 (S (S n))) with (0%nat :: seq 1 (S n)).
    rewrite <- seq_shift, map_cons, map_map. cbn [flat_map].
    rewrite line_point_0 by lra. rewrite app_assoc.
    destruct (Rlt_dec remaining 1.0) as [Hlt|Hge].
    + assert (n = 0%nat) as ->.
      { destruct n as [|n]; [reflexivity|]. rewrite S_INR in Hn.
        pose proof (pos_INR n). lra. }
      rewrite (IH fuel) by (cbn [INR]; try lra; try lia; left; reflexivity).
      do 3 f_equal. apply map_ext. intros k.
      symmetry. apply line_point_last_step. lra.
    + rewrite (IH fuel) by (try lra; try lia; right; lra).
      do 3 f_equal. apply map_ext. intros k.
      symmetry. apply line_point_whole_step. lra.
Qed.

Lemma line_unfold (fuel : nat) (m : ProbabilityMap) (sw ew : Point2.t) :
  line fuel m sw ew
  = line_loop m sw ew (line_delta m sw ew) fuel []
              (line_start m sw ew) (line_length m sw ew).
Proof.
  unfold line, line_delta, line_start, line_length.
  destruct (line_setup m sw ew) as [[s d] l]. reflexivity.
Qed.

Lemma line_start_fromWorld (m : ProbabilityMap) (sw ew : Point2.t) :
  line_start m sw ew = fromWorld m sw.
Proof.
  unfold line_start, line_setup. cbv zeta.
  match goal with
  | |- context [Rlt_dec ?a ?b] => destruct (Rlt_dec a b)
  end; reflexivity.
Qed.

Lemma line_length_nonneg (m : ProbabilityMap) (sw ew : Point2.t) :
  0 <= line_length m sw ew.
Proof.
  unfold line_length, line_setup. cbv zeta.
  match goal with
  | |- context [Rlt_dec ?a ?b] => destruct (Rlt_dec a b)
  end; cbn [snd]; apply Rabs_pos.
Qed.



Lemma line_steps_spec (m : ProbabilityMap) (sw ew : Point2.t) :
  0 <= line_length m sw ew <= INR (line_steps m sw ew)
  /\ (line_steps m sw ew = 0%nat
      \/ INR (line_steps m sw ew) - 1 < line_length m sw ew).
Proof.
  pose proof (line_length_nonneg m sw ew) as H0.
  destruct (ceil_bounds (line_length m sw ew)) as [H1 H2].
  unfold line_steps.
  assert (Hc : (0 <= ceil (line_length m sw ew))%Z).
  { destruct (Z_lt_le_dec (ceil (line_length m sw ew)) 0) as [Hneg|Hpos];
      [exfalso|assumption].
    assert (H : IZR (ceil (line_length m sw ew) + 1) <= 0)
      by (apply IZR_le; lia).
    rewrite plus_IZR in H. lra. }
  rewrite INR_Z, Z2Nat.id by exact Hc. split; [lra|]. right. lra.
Qed.

Lemma line_cell_index (m : ProbabilityMap) (sw ew p : Point2.t) :
  map cell_index (line_cell m sw ew p)
  = if inside m (fst (cell_of p)) (snd (cell_of p)) then [cell_of p]
    else [].
Proof.
  unfold line_cell, cell_of. cbv zeta. cbn [fst snd].
  destruct (inside m _ _); reflexivity.
Qed.

Lemma line_cells_index (m : ProbabilityMap) (sw ew : Point2.t)
    (points : list Point2.t) :
  map cell_index (flat_map (line_cell m sw ew) points)
  = filter (fun rc => inside m (fst rc) (snd rc)) (map cell_of points).
Proof.
  induction points as [|p points IH]; [reflexivity|].
  cbn [flat_map map filter]. rewrite map_app, IH, line_cell_index.
  destruct (inside m _ _); reflexivity.
Qed.



Lemma line_total (fuel : nat) (m : ProbabilityMap) (sw ew : Point2.t) :
  (line_steps m sw ew < fuel)%nat ->
  line fuel m sw ew
  = Some (flat_map (line_cell m sw ew) (line_walk m sw ew)).
Proof.
  intros Hfuel. rewrite line_unfold.
  destruct (line_steps_spec m sw ew) as [Hlen Hsteps].
  rewrite (line_loop_walk m sw ew _ (line_steps m sw ew))
    by assumption.
  reflexivity.
Qed.




(** *** Beams along a row *)

Section HorizontalBeam.

Variables (m : ProbabilityMap) (sw ew : Point2.t) (n : nat).

Hypothesis same_row :
  Point2.y (fromWorld m sw) = Point2.y (fromWorld m ew).
Hypothesis length_n :
  Point2.x (fromWorld m ew) - Point2.x (fromWorld m sw) = INR (S n).

Lemma horizontal_setup :
  line_start m sw ew = fromWorld m sw
  /\ line_delta m sw ew = Point2.mk 1 0
  /\ line_length m sw ew = INR (S n).
Proof.
  pose proof (pos_INR n) as Hn. rewrite S_INR in length_n.
  unfold line_start, line_delta, line_length, line_setup. cbv zeta.
  rewrite <- same_row.
  set (s := fromWorld m sw) in *. set (e := fromWorld m ew) in *.
  replace (Point2.y s - Point2.y s) with 0 by lra. rewrite Rabs_R0.
  rewrite (Rabs_pos_eq (Point2.x e - Point2.x s)) by lra.
  destruct (Rlt_dec 0 (Point2.x e - Point2.x s)) as [_|H]; [|lra].
  destruct (Rlt_dec (Point2.x s) (Point2.x e)) as [_|H]; [|lra].
  cbn [fst snd]. split; [reflexivity|]. split.
  - apply Point2_eq; cbn [Point2.x Point2.y]; unfold to_double.
    + reflexivity.
    + unfold Rdiv. rewrite Rmult_0_l. apply Rmult_0_r.
  - rewrite S_INR. exact length_n.
Qed.

Lemma horizontal_steps : line_steps m sw ew = S n.
Proof.
  unfold line_steps. destruct horizontal_setup as (_ & _ & ->).
  rewrite (ceil_eq (INR (S n)) (Z.of_nat (S n))).
  - apply Nat2Z.id.
  - rewrite <- INR_Z. lra.
Qed.

(** The walk visits the cells of one row, column after column. *)
Lemma horizontal_walk_cells :
  map cell_of (line_walk m sw ew)
  = map (fun k => (Int_part (Point2.y (fromWorld m sw)),
                   (Int_part (Point2.x (fromWorld m sw)) + Z.of_nat k)%Z))
        (seq 0 (S (S n))).
Proof.
  unfold line_walk. rewrite horizontal_steps.
  destruct horizontal_setup as (-> & -> & ->).
  set (s := fromWorld m sw).
  rewrite map_map. apply map_ext_in. intros k Hk.
  apply in_seq in Hk.
  unfold cell_of, line_point.
  cbn [Point2.x Point2.y Point2.add Point2.scale].
  rewrite !to_int_floor.
  assert (Hle : INR k <= INR (S n)) by (apply le_INR; lia).
  rewrite Rmin_left by exact Hle. f_equal.
  - f_equal. ring.
  - replace (Point2.x s + INR k * 1) with (IZR (Z.of_nat k) + Point2.x s)
      by (rewrite <- INR_Z; ring).
    rewrite Int_part_shift. lia.
Qed.

End HorizontalBeam.

(** A beam that starts outside the 3x3 map: its first two cells are
    skipped and the three cells it then crosses are returned. *)
Lemma beam_enters_map :
  line_steps map3 beam_start beam_end = 4%nat
  /\ map cell_of (line_walk map3 beam_start beam_end)
     = [(0, -2); (0, -1); (0, 0); (0, 1); (0, 2)]%Z
  /\ option_map (map cell_index) (line 5 map3 beam_start beam_end)
     = Some [(0, 0); (0, 1); (0, 2)]%Z.
Proof.
  assert (Hrow : Point2.y (fromWorld map3 beam_start)
                 = Point2.y (fromWorld map3 beam_end)) by reflexivity.
  assert (Hlen : Point2.x (fromWorld map3 beam_end)
                 - Point2.x (fromWorld map3 beam_start) = INR 4)
    by (cbn; lra).
  pose proof (horizontal_steps map3 beam_start beam_end 3 Hrow Hlen) as Hs.
  pose proof (horizontal_walk_cells map3 beam_start beam_end 3 Hrow Hlen)
    as Hw.
  rewrite (Int_part_eq (Point2.y (fromWorld map3 beam_start)) 0) in Hw
    by (cbn; lra).
  rewrite (Int_part_eq (Point2.x (fromWorld map3 beam_start)) (-2)) in Hw
    by (cbn; lra).
  split; [exact Hs|]. split; [exact Hw|].
  rewrite line_total by (rewrite Hs; lia). cbn [option_map].
  rewrite line_cells_index, Hw. reflexivity.
Qed.


(** C4: on the 10x10 map of cell size 0.1, the line from world point
    (0.05, 0.05) to world point (0.95, 0.05) returns ten cells, all of
    row 0, with the columns 0 to 9 in increasing order. *)
Theorem scenario_C (fuel : nat) :
  option_map (map cell_index)
    (line (10 + fuel) map10 (Point2.mk 0.05 0.05) (Point2.mk 0.95 0.05))
  = Some [(0, 0); (0, 1); (0, 2); (0, 3); (0, 4);
          (0, 5); (0, 6); (0, 7); (0, 8); (0, 9)]%Z.
Proof.
  set (sw := Point2.mk 0.05 0.05). set (ew := Point2.mk 0.95 0.05).
  assert (Hrow : Point2.y (fromWorld map10 sw) = Point2.y (fromWorld map10 ew))
    by reflexivity.
  assert (Hlen : Point2.x (fromWorld map10 ew) - Point2.x (fromWorld map10 sw)
                 = INR 9) by (cbn; lra).
  pose proof (horizontal_steps map10 sw ew 8 Hrow Hlen) as Hs.
  pose proof (horizontal_walk_cells map10 sw ew 8 Hrow Hlen) as Hw.
  rewrite (Int_part_eq (Point2.y (fromWorld map10 sw)) 0) in Hw
    by (cbn; lra).
  rewrite (Int_part_eq (Point2.x (fromWorld map10 sw)) 0) in Hw
    by (cbn; lra).
  rewrite line_total by (rewrite Hs; lia). cbn [option_map].
  rewrite line_cells_index, Hw. reflexivity.
Qed.

(** * Further properties of the code *)

(** ** Log-odds conversions *)

Lemma LogOddsToProbability_lt (a b : R) :
  a < b -> LogOddsToProbability a < LogOddsToProbability b.
Proof.
  intros H. unfold LogOddsToProbability. cbv zeta.
  pose proof (exp_pos a) as Ha. pose proof (exp_increasing a b H) as Hab.
  replace 1.0 with 1 by lra.
  apply (Rmult_lt_reg_r ((1 + exp a) * (1 + exp b))); [nra|].
  replace (exp a / (1 + exp a) * ((1 + exp a) * (1 + exp b)))
    with (exp a * (1 + exp b)) by (field; lra).
  replace (exp b / (1 + exp b) * ((1 + exp a) * (1 + exp b)))
    with (exp b * (1 + exp a)) by (field; lra).
  nra.
Qed.

Lemma LogOddsToProbability_le (a b : R) :
  a <= b -> LogOddsToProbability a <= LogOddsToProbability b.
Proof.
  intros [H| ->]; [left; apply LogOddsToProbability_lt; exact H|right].
  reflexivity.
Qed.

Lemma ProbabilityToLogOdds_lt (p q : R) :
  0 < p < 1 -> 0 < q < 1 -> p < q ->
  ProbabilityToLogOdds p < ProbabilityToLogOdds q.
Proof.
  intros Hp Hq Hpq. unfold ProbabilityToLogOdds. cbv zeta.
  replace 1.0 with 1 by lra.
  apply ln_increasing; [apply Rdiv_lt_0_compat; lra|].
  apply (Rmult_lt_reg_r ((1 - p) * (1 - q))); [nra|].
  replace (p / (1 - p) * ((1 - p) * (1 - q))) with (p * (1 - q))
    by (field; lra).
  replace (q / (1 - q) * ((1 - p) * (1 - q))) with (q * (1 - p))
    by (field; lra).
  nra.
Qed.

(** ** update and clear *)

Lemma update_coeff (m : ProbabilityMap) (row col r c : Z) (p : R) :
  Matrix.coeff (data_ (snd (update m row col p))) r c
  = if (inside m row col && Z.eqb r row && Z.eqb c col)%bool
    then clamp (Matrix.coeff (data_ m) row col + ProbabilityToLogOdds p)
    else Matrix.coeff (data_ m) r c.
Proof.
  destruct (inside m row col) eqn:Hin; cbn [andb].
  - destruct (Z.eqb_spec r row) as [->|Hr];
      [destruct (Z.eqb_spec c col) as [->|Hc]|]; cbn [andb].
    + apply update_cell. exact Hin.
    + apply update_frame. congruence.
    + apply update_frame. congruence.
  - unfold update. rewrite Hin. reflexivity.
Qed.

Lemma clamp_id (s : R) :
  - MAX_LOG_ODDS <= s <= MAX_LOG_ODDS -> clamp s = s.
Proof.
  intros H. unfold clamp.
  destruct (Rlt_dec MAX_LOG_ODDS s); [lra|].
  destruct (Rlt_dec s (- MAX_LOG_ODDS)); [lra|reflexivity].
Qed.

Lemma clamp_le (s t : R) : s <= t -> clamp s <= clamp t.
Proof.
  intros H. unfold clamp, MAX_LOG_ODDS.
  repeat match goal with
         | |- context [Rlt_dec ?a ?b] => destruct (Rlt_dec a b)
         end; lra.
Qed.

(** [update] is invisible from every other cell: what [at] returns there,
    thrown or not, is what it returned before, and the dimensions, the
    origin and the cell size of the map are kept. *)
Theorem update_leaves_other_cells (m : ProbabilityMap) (row col r c : Z)
    (p : R) :
  (r, c) <> (row, col) ->
  at_ (snd (update m row col p)) r c = at_ m r c
  /\ rows (snd (update m row col p)) = rows m
  /\ cols (snd (update m row col p)) = cols m
  /\ origin_ (snd (update m row col p)) = origin_ m
  /\ cell_size_ (snd (update m row col p)) = cell_size_ m.
Proof.
  intros Hne. split; [|apply update_shape].
  unfold at_. rewrite inside_update, update_coeff.
  destruct (Z.eqb_spec r row) as [->|Hr];
    [destruct (Z.eqb_spec c col) as [->|Hc]|];
    rewrite ?andb_false_r; cbn [andb]; try reflexivity.
  contradiction Hne. reflexivity.
Qed.

Lemma update_leaves_other_cells_witness :
  at_ (snd (update map3 1 1 0.9)) 0 5 = at_ map3 0 5.
Proof.
  apply (update_leaves_other_cells map3 1 1 0 5 0.9). congruence.
Defined.

Lemma ProbabilityToLogOdds_nonpos (p : R) :
  0 < p <= 0.5 -> ProbabilityToLogOdds p <= 0.
Proof.
  intros [Hlo [Hhi| ->]].
  - left. unfold ProbabilityToLogOdds. cbv zeta.
    rewrite <- ln_1. apply ln_increasing.
    + apply Rdiv_lt_0_compat; lra.
    + apply (Rmult_lt_reg_r (1.0 - p)); [lra|]. field_simplify; lra.
  - right. apply ProbabilityToLogOdds_half.
Qed.

(** [update] never moves a cell against the observation: on an in-bounds
    cell whose log-odds lies within the bound, a probability of at least
    0.5 does not lower the stored log-odds and a probability of at most
    0.5 does not raise it. *)
Theorem update_follows_evidence (m : ProbabilityMap) (row col : Z)
    (p : R) :
  inside m row col = true ->
  0 < p < 1 ->
  - MAX_LOG_ODDS <= Matrix.coeff (data_ m) row col <= MAX_LOG_ODDS ->
  (0.5 <= p ->
   Matrix.coeff (data_ m) row col
   <= Matrix.coeff (data_ (snd (update m row col p))) row col)
  /\ (p <= 0.5 ->
      Matrix.coeff (data_ (snd (update m row col p))) row col
      <= Matrix.coeff (data_ m) row col).
Proof.
  intros Hin Hp Hcell.
  rewrite update_coeff, Hin, !Z.eqb_refl. cbn [andb].
  split; intros Hhalf.
  - assert (Hlo : 0 <= ProbabilityToLogOdds p).
    { destruct Hhalf as [H| <-].
      - left. apply ProbabilityToLogOdds_pos. lra.
      - right. symmetry. apply ProbabilityToLogOdds_half. }
    rewrite <- (clamp_id _ Hcell) at 1. apply clamp_le. lra.
  - pose proof (ProbabilityToLogOdds_nonpos p ltac:(lra)) as Hlo.
    rewrite <- (clamp_id _ Hcell) at 2. apply clamp_le. lra.
Qed.

Lemma update_follows_evidence_witness :
  (0.5 <= 0.9 ->
   Matrix.coeff (data_ map3) 1 1
   <= Matrix.coeff (data_ (snd (update map3 1 1 0.9))) 1 1)
  /\ (0.9 <= 0.5 ->
      Matrix.coeff (data_ (snd (update map3 1 1 0.9))) 1 1
      <= Matrix.coeff (data_ map3) 1 1).
Proof.
  apply (update_follows_evidence map3 1 1 0.9).
  - reflexivity.
  - lra.
  - simpl. unfold MAX_LOG_ODDS. lra.
Defined.

(** Updates of two different cells commute: either order leaves the same
    map. *)
Theorem updates_commute (m : ProbabilityMap) (row col row' col' : Z)
    (p p' : R) :
  (row, col) <> (row', col') ->
  same_map (snd (update (snd (update m row col p)) row' col' p'))
           (snd (update (snd (update m row' col' p')) row col p)).
Proof.
  intros Hne.
  destruct (update_shape m row col p) as (H1 & H2 & H3 & H4).
  destruct (update_shape (snd (update m row col p)) row' col' p')
    as (H5 & H6 & H7 & H8).
  destruct (update_shape m row' col' p') as (G1 & G2 & G3 & G4).
  destruct (update_shape (snd (update m row' col' p')) row col p)
    as (G5 & G6 & G7 & G8).
  unfold same_map. repeat split; try congruence.
  intros r c. rewrite !update_coeff, !inside_update.
  destruct (Z.eqb_spec row row') as [Er|Er];
    destruct (Z.eqb_spec col col') as [Ec|Ec];
    try (exfalso; apply Hne; congruence);
    rewrite ?andb_false_r; cbn [andb];
    destruct (Z.eqb_spec r row) as [->|Hr];
    destruct (Z.eqb_spec c col) as [->|Hc];
    destruct (Z.eqb_spec row row') as [Er'|Er'];
    destruct (Z.eqb_spec col col') as [Ec'|Ec'];
    try (exfalso; apply Hne; congruence); try congruence;
    rewrite ?andb_false_r, ?andb_true_r; cbn [andb];
    repeat match goal with
           | |- context [Z.eqb ?a ?b] =>
               destruct (Z.eqb_spec a b); try congruence
           end;
    rewrite ?andb_false_r, ?andb_true_r; cbn [andb];
    destruct (inside m row col), (inside m row' col'); reflexivity.
Qed.

Lemma updates_commute_witness :
  same_map (snd (update (snd (update map3 1 1 0.9)) 0 2 0.2))
           (snd (update (snd (update map3 0 2 0.2)) 1 1 0.9)).
Proof.
  apply (updates_commute map3 1 1 0 2 0.9 0.2). congruence.
Defined.

Lemma updates_shape (calls : list (Z * Z * R)) :
  forall m : ProbabilityMap,
    rows (updates m calls) = rows m /\ cols (updates m calls) = cols m
    /\ origin_ (updates m calls) = origin_ m
    /\ cell_size_ (updates m calls) = cell_size_ m.
Proof.
  induction calls as [|[[row col] p] calls IH]; intros m.
  - repeat split.
  - cbn [updates fold_left fst snd].
    destruct (IH (snd (update m row col p))) as (H1 & H2 & H3 & H4).
    destruct (update_shape m row col p) as (G1 & G2 & G3 & G4).
    unfold updates in *. repeat split; congruence.
Qed.

(** [clear] forgets every update: after any sequence of [update] calls,
    [clear] leaves the map the constructor builds for the same dimensions,
    origin and cell size, and [at] returns 0.5 at every in-bounds cell. *)
Theorem clear_forgets_updates (m : ProbabilityMap)
    (calls : list (Z * Z * R)) (r c : Z) :
  inside m r c = true ->
  at_ (clear (updates m calls)) r c = Ok 0.5
  /\ same_map (new (rows m) (cols m) (cell_size_ m) (origin_ m))
              (clear (updates m calls)).
Proof.
  intros Hin. destruct (updates_shape calls m) as (H1 & H2 & H3 & H4).
  split.
  - unfold at_, inside, clear, rows, cols in *. cbn [data_ Matrix.rows
      Matrix.cols Matrix.Zero Matrix.coeff]. unfold rows, cols in H1, H2.
    rewrite H1, H2, Hin. cbn [negb]. f_equal. apply LogOddsToProbability_0.
  - unfold same_map, clear, new, rows, cols in *.
    cbn [data_ origin_ cell_size_ Matrix.rows Matrix.cols Matrix.Zero
         Matrix.coeff].
    repeat split; assumption.
Qed.

Lemma clear_forgets_updates_witness :
  at_ (clear (updates map3 [(1%Z, 1%Z, 0.9)])) 1 1 = Ok 0.5.
Proof.
  apply (clear_forgets_updates map3 [(1%Z, 1%Z, 0.9)] 1 1). reflexivity.
Defined.

(** ** interpolate away from the degenerate maps *)

Lemma interpolate_exact_witness :
  interpolate map3 (Point2.mk (to_double 2) (to_double 2)) = at_ map3 2 2.
Proof.
  apply (interpolate_exact map3 2 2).
  - unfold rows, map3, new. simpl. lia.
  - unfold cols, map3, new. simpl. lia.
  - reflexivity.
Defined.

Lemma interpolate_throws_iff_witness :
  throws (interpolate map3 (Point2.mk 3 0))
  <-> inside_point map3 (Point2.mk 3 0) = false.
Proof.
  apply (interpolate_throws_iff map3 (Point2.mk 3 0)).
  - unfold rows, map3, new. simpl. lia.
  - unfold cols, map3, new. simpl. lia.
Defined.

(** In the last column [interpolate] extrapolates: at a point on an
    in-bounds integer row whose abscissa lies in the last column, beyond the
    last sample, the value returned continues the line through the last two
    samples of the row, so the sample before the last one gets a negative
    weight. *)
Theorem interpolate_last_column_extrapolates (m : ProbabilityMap) (r : Z)
    (x : R) :
  (2 <= rows m)%nat -> (2 <= cols m)%nat ->
  (0 <= r < Z.of_nat (rows m))%Z ->
  IZR (Z.of_nat (cols m) - 1) <= x < IZR (Z.of_nat (cols m)) ->
  interpolate m (Point2.mk x (to_double r))
  = Ok (LogOddsToProbability
          (Matrix.coeff (data_ m) r (Z.of_nat (cols m) - 1))
        + (x - IZR (Z.of_nat (cols m) - 1))
          * (LogOddsToProbability
               (Matrix.coeff (data_ m) r (Z.of_nat (cols m) - 1))
             - LogOddsToProbability
                 (Matrix.coeff (data_ m) r (Z.of_nat (cols m) - 2)))).
Proof.
  intros Hrows Hcols Hr Hx.
  assert (Hc1 : 0 <= IZR (Z.of_nat (cols m) - 1)) by (apply IZR_le; lia).
  assert (Hin : inside_point m (Point2.mk x (to_double r)) = true).
  { apply inside_point_iff. cbn [Point2.x Point2.y]. unfold to_double.
    rewrite !INR_Z. repeat split; try lra.
    - apply IZR_le. lia.
    - apply IZR_lt. lia. }
  unfold interpolate. rewrite Hin.
  cbn [negb Point2.x Point2.y]. cbv zeta.
  rewrite !to_int_floor.
  replace (Int_part (to_double r)) with r
    by (symmetry; apply Int_part_IZR).
  assert (Hc2 : IZR (Z.of_nat (cols m))
                = IZR (Z.of_nat (cols m) - 1) + 1)
    by (rewrite minus_IZR; lra).
  rewrite (Int_part_eq x (Z.of_nat (cols m) - 1))
    by (clear - Hx Hc2; lra).
  rewrite Z.leb_refl.
  destruct (Z.leb_spec (Z.of_nat (rows m) - 1) r) as [Hlast|Hlast];
    [assert (r = Z.of_nat (rows m) - 1)%Z as -> by lia|];
    rewrite !at_inside by (apply inside_iff; lia); cbn [bind]; f_equal;
    first [rewrite blend_high by lia | rewrite blend_low by lia];
    unfold to_double;
    replace (Z.of_nat (cols m) - 1 - (Z.of_nat (cols m) - 2))%Z with 1%Z
      by lia;
    rewrite !minus_IZR; field.
Qed.

Lemma interpolate_last_column_extrapolates_witness :
  interpolate map3 (Point2.mk 2.5 (to_double 1))
  = Ok (LogOddsToProbability (Matrix.coeff (data_ map3) 1 (3 - 1))
        + (2.5 - IZR (3 - 1))
          * (LogOddsToProbability (Matrix.coeff (data_ map3) 1 (3 - 1))
             - LogOddsToProbability
                 (Matrix.coeff (data_ map3) 1 (3 - 2)))).
Proof.
  apply (interpolate_last_column_extrapolates map3 1 2.5).
  - unfold rows, map3, new. simpl. lia.
  - unfold cols, map3, new. simpl. lia.
  - simpl. lia.
  - simpl. lra.
Defined.

(** ** Scans over the cells: points and the image samples *)

Lemma fold_left_ext {A B : Type} (f g : A -> B -> A) :
  (forall a b, f a b = g a b) ->
  forall (l : list B) (a : A), fold_left f l a = fold_left g l a.
Proof.
  intros Hfg l. induction l as [|b l IH]; intros a; cbn [fold_left].
  - reflexivity.
  - rewrite Hfg. apply IH.
Qed.

Section ScanLoops.

Variables (A : Type) (keep : nat -> nat -> bool) (item : nat -> nat -> A).

Lemma scan_row_fold (row : nat) (cs : list nat) :
  forall acc : list A,
    fold_left
      (fun acc col => if keep row col then acc ++ [item row col] else acc)
      cs acc
    = acc ++ map (item row) (filter (keep row) cs).
Proof.
  induction cs as [|c cs IH]; intros acc; cbn [fold_left filter map].
  - symmetry. apply app_nil_r.
  - rewrite IH. destruct (keep row c); [|reflexivity].
    rewrite <- app_assoc. reflexivity.
Qed.

Lemma scan_fold (rs cs : list nat) :
  forall acc : list A,
    fold_left
      (fun acc row =>
         fold_left
           (fun acc col =>
              if keep row col then acc ++ [item row col] else acc)
           cs acc)
      rs acc
    = acc ++ flat_map (fun row => map (item row) (filter (keep row) cs)) rs.
Proof.
  induction rs as [|r rs IH]; intros acc; cbn [fold_left flat_map].
  - symmetry. apply app_nil_r.
  - rewrite IH, scan_row_fold, <- app_assoc. reflexivity.
Qed.

End ScanLoops.

Lemma flat_map_rows_filter {A : Type} (keep : nat -> nat -> bool)
    (item : nat -> nat -> A) (rs cs : list nat) :
  flat_map (fun row => map (item row) (filter (keep row) cs)) rs
  = map (fun rc => item (fst rc) (snd rc))
        (filter (fun rc => keep (fst rc) (snd rc))
                (flat_map (fun row => map (fun col => (row, col)) cs) rs)).
Proof.
  induction rs as [|r rs IH]; [reflexivity|].
  cbn [flat_map]. rewrite filter_app, map_app, <- IH. f_equal.
  clear IH. induction cs as [|c cs IH]; [reflexivity|].
  cbn [filter map fst snd]. destruct (keep r c); cbn [map fst snd];
    rewrite IH; reflexivity.
Qed.

Lemma in_scan (m : ProbabilityMap) (r c : nat) :
  In (r, c) (scan m) <-> (r < rows m)%nat /\ (c < cols m)%nat.
Proof.
  unfold scan. rewrite in_flat_map. split.
  - intros (r' & Hr & Hc). apply in_map_iff in Hc as (c' & Heq & Hc).
    apply in_seq in Hr, Hc. inversion Heq; subst. lia.
  - intros [Hr Hc]. exists r. split; [apply in_seq; lia|].
    apply in_map. apply in_seq. lia.
Qed.

(** [points] is the scan of the map, filtered by the comparison of the
    log-odds and turned into (col, row) points. *)
Lemma points_filter_scan (m : ProbabilityMap) (threshold : R) :
  points m threshold
  = map (fun rc => Point2.mk (INR (snd rc)) (INR (fst rc)))
        (filter
           (fun rc =>
              if Rlt_dec (ProbabilityToLogOdds threshold)
                   (Matrix.coeff (data_ m)
                      (Z.of_nat (fst rc)) (Z.of_nat (snd rc)))
              then true else false)
           (scan m)).
Proof.
  unfold points, scan. cbv zeta.
  rewrite <- (flat_map_rows_filter
                (fun row col =>
                   if Rlt_dec (ProbabilityToLogOdds threshold)
                        (Matrix.coeff (data_ m)
                           (Z.of_nat row) (Z.of_nat col))
                   then true else false)
                (fun row col => Point2.mk (INR col) (INR row))).
  rewrite <- (app_nil_l (flat_map _ _)).
  rewrite <- scan_fold.
  apply fold_left_ext. intros acc row.
  apply fold_left_ext. intros acc' col.
  destruct (Rlt_dec _ _); reflexivity.
Qed.

Lemma scan_length (m : ProbabilityMap) :
  length (scan m) = (rows m * cols m)%nat.
Proof.
  unfold scan.
  assert (H : forall rs : list nat,
            length (flat_map
                      (fun row => map (fun col => (row, col))
                                      (seq 0 (cols m))) rs)
            = (length rs * cols m)%nat).
  { induction rs as [|r rs IH]; [reflexivity|].
    cbn [flat_map length]. rewrite length_app, length_map, length_seq, IH.
    reflexivity. }
  rewrite H, length_seq. reflexivity.
Qed.

Lemma ProbabilityToLogOdds_nonneg (p : R) :
  0.5 <= p < 1 -> 0 <= ProbabilityToLogOdds p.
Proof.
  intros [[Hlo| <-] Hhi].
  - left. apply ProbabilityToLogOdds_pos. lra.
  - right. symmetry. apply ProbabilityToLogOdds_half.
Qed.

(** [points] keeps the order of the row-major scan: for a threshold that
    is a probability, strictly between 0 and 1, it is the scan of the
    map, row after row and column after column, reduced to the cells
    whose stored log-odds exceed the log-odds of the threshold, each
    turned into the point (col, row); so it never holds more than
    rows * cols points, and on a cleared map it is empty for every
    threshold of at least 0.5. *)
Theorem points_scan_order (m : ProbabilityMap) (threshold : R) :
  0 < threshold < 1 ->
  points m threshold
  = map (fun rc => Point2.mk (INR (snd rc)) (INR (fst rc)))
        (filter
           (fun rc =>
              if Rlt_dec (ProbabilityToLogOdds threshold)
                   (Matrix.coeff (data_ m)
                      (Z.of_nat (fst rc)) (Z.of_nat (snd rc)))
              then true else false)
           (scan m))
  /\ (length (points m threshold) <= rows m * cols m)%nat
  /\ (0.5 <= threshold -> points (clear m) threshold = []).
Proof.
  intros Ht. split; [apply points_filter_scan|]. split.
  - rewrite points_filter_scan, length_map, <- scan_length.
    generalize (scan m). intros l.
    induction l as [|a l IH]; cbn [filter length]; [lia|].
    destruct (Rlt_dec _ _); cbn [length]; lia.
  - intros Hhalf.
    pose proof (ProbabilityToLogOdds_nonneg threshold ltac:(lra)) as Hlo.
    rewrite points_filter_scan.
    generalize (scan (clear m)). intros l.
    induction l as [|a l IH]; [reflexivity|].
    cbn [filter]. cbn [clear data_ Matrix.Zero Matrix.coeff] in *.
    destruct (Rlt_dec _ _) as [Hlt|_]; [lra|exact IH].
Qed.

Lemma points_scan_order_witness : points (clear map3) 0.5 = [].
Proof.
  refine (proj2 (proj2 (points_scan_order map3 0.5 _)) _); lra.
Defined.

(** [points] returns exactly the cells above the threshold in log-odds:
    for a threshold strictly between 0 and 1, the point (c, r) is in the
    list if and only if (r, c) is a cell of the map whose stored log-odds
    exceed [ProbabilityToLogOdds] of the threshold; so with a threshold
    of at least 0.5 a cell whose log-odds is not positive (one that was
    never updated, or was observed free) is not returned. *)
Theorem points_membership (m : ProbabilityMap) (threshold : R) (r c : nat) :
  0 < threshold < 1 ->
  (In (Point2.mk (INR c) (INR r)) (points m threshold)
   <-> (r < rows m)%nat /\ (c < cols m)%nat
       /\ ProbabilityToLogOdds threshold
          < Matrix.coeff (data_ m) (Z.of_nat r) (Z.of_nat c))
  /\ (0.5 <= threshold ->
      Matrix.coeff (data_ m) (Z.of_nat r) (Z.of_nat c) <= 0 ->
      ~ In (Point2.mk (INR c) (INR r)) (points m threshold)).
Proof.
  intros Ht.
  assert (Hiff : In (Point2.mk (INR c) (INR r)) (points m threshold)
                 <-> (r < rows m)%nat /\ (c < cols m)%nat
                     /\ ProbabilityToLogOdds threshold
                        < Matrix.coeff (data_ m) (Z.of_nat r) (Z.of_nat c)).
  { rewrite points_filter_scan, in_map_iff. split.
    - intros ([r' c'] & Hq & Hin). apply filter_In in Hin as [Hscan Hk].
      apply in_scan in Hscan. cbn [fst snd] in *.
      inversion Hq as [[Hc Hr]]. apply INR_eq in Hc, Hr. subst r' c'.
      split; [lia|]. split; [lia|].
      destruct (Rlt_dec _ _); [assumption|discriminate].
    - intros (Hr & Hc & Habove). exists (r, c). cbn [fst snd].
      split; [reflexivity|]. apply filter_In. split.
      + apply in_scan. lia.
      + cbn [fst snd]. destruct (Rlt_dec _ _); [reflexivity|contradiction]. }
  split; [exact Hiff|].
  intros Hhalf Hcell Hin. apply Hiff in Hin as (_ & _ & Habove).
  pose proof (ProbabilityToLogOdds_nonneg threshold ltac:(lra)) as Hlo.
  lra.
Qed.

Lemma points_membership_witness :
  ~ In (Point2.mk (INR 1) (INR 1)) (points map3 0.5).
Proof.
  refine (proj2 (points_membership map3 0.5 1 1 _) _ _);
    [lra|lra|simpl; lra].
Defined.

(** Scenario E in general: on a newly constructed map with one in-bounds
    cell updated by a probability above a threshold of at least 0.5, both
    below 1 and the threshold below the saturation bound in log-odds,
    [points] returns exactly the point of that cell. *)
Theorem points_single_update (rows0 cols0 : nat) (cell_size : R)
    (origin : Point2.t) (r c : nat) (p threshold : R) :
  (r < rows0)%nat -> (c < cols0)%nat ->
  0.5 <= threshold < p -> p < 1 ->
  ProbabilityToLogOdds threshold < MAX_LOG_ODDS ->
  points (snd (update (new rows0 cols0 cell_size origin)
                      (Z.of_nat r) (Z.of_nat c) p))
         threshold
  = [Point2.mk (INR c) (INR r)].
Proof.
  intros Hr Hc Ht Hp Hsat.
  set (m := new rows0 cols0 cell_size origin).
  assert (Hin : inside m (Z.of_nat r) (Z.of_nat c) = true)
    by (apply inside_iff; unfold m, rows, cols; cbn; lia).
  rewrite points_filter_scan.
  assert (Hthr : 0 <= ProbabilityToLogOdds threshold).
  { destruct (proj1 Ht) as [H| <-].
    - left. apply ProbabilityToLogOdds_pos. lra.
    - right. symmetry. apply ProbabilityToLogOdds_half. }
  assert (Hlt : ProbabilityToLogOdds threshold < ProbabilityToLogOdds p)
    by (apply ProbabilityToLogOdds_lt; lra).
  assert (Hkeep : forall rc : nat * nat,
            (if Rlt_dec (ProbabilityToLogOdds threshold)
                  (Matrix.coeff
                     (data_ (snd (update m (Z.of_nat r) (Z.of_nat c) p)))
                     (Z.of_nat (fst rc)) (Z.of_nat (snd rc)))
             then true else false)
            = (Nat.eqb (fst rc) r && Nat.eqb (snd rc) c)%bool).
  { intros [r' c']. cbn [fst snd]. rewrite update_coeff, Hin.
    cbn [andb]. change (Matrix.coeff (data_ m) _ _) with 0.
    destruct (Nat.eqb_spec r' r) as [->|Hr'];
      [destruct (Nat.eqb_spec c' c) as [->|Hc']|].
    - rewrite !Z.eqb_refl. cbn [andb]. rewrite Rplus_0_l.
      destruct (Rlt_dec _ _) as [_|H]; [reflexivity|exfalso; apply H].
      unfold clamp, MAX_LOG_ODDS in *.
      repeat match goal with
             | |- context [Rlt_dec ?a ?b] => destruct (Rlt_dec a b)
             end; lra.
    - destruct (Z.eqb_spec (Z.of_nat c') (Z.of_nat c)) as [E|_]; [lia|].
      rewrite andb_false_r. cbn [andb].
      destruct (Rlt_dec _ _); [lra|reflexivity].
    - destruct (Z.eqb_spec (Z.of_nat r') (Z.of_nat r)) as [E|_]; [lia|].
      cbn [andb]. destruct (Rlt_dec _ _); [lra|reflexivity]. }
  rewrite (filter_ext _ _ Hkeep).
  destruct (update_shape m (Z.of_nat r) (Z.of_nat c) p) as (Hrs & Hcs & _).
  unfold scan. rewrite Hrs, Hcs.
  change (rows m) with rows0. change (cols m) with cols0.
  clear Hkeep Hin Hrs Hcs Hthr Hlt Hsat. clearbody m.
  assert (Hrow : forall (row : nat) (s n : nat),
            filter (fun rc : nat * nat =>
                      (Nat.eqb (fst rc) r && Nat.eqb (snd rc) c)%bool)
                   (map (fun col => (row, col)) (seq s n))
            = if (Nat.eqb row r && Nat.leb s c && Nat.ltb c (s + n))%bool
              then [(r, c)] else []).
  { intros row s n. revert s.
    induction n as [|n IH]; intros s; cbn [seq map filter fst snd].
    - destruct (Nat.eqb_spec row r), (Nat.leb_spec s c),
               (Nat.ltb_spec c (s + 0)); cbn [andb]; try reflexivity; lia.
    - rewrite IH.
      destruct (Nat.eqb_spec row r) as [->|Hrow]; cbn [andb];
        [|reflexivity].
      destruct (Nat.eqb_spec s c) as [->|Hs]; cbn [andb].
      + destruct (Nat.leb_spec (S c) c); [lia|].
        destruct (Nat.leb_spec c c); [|lia].
        destruct (Nat.ltb_spec c (c + S n)); [|lia]. reflexivity.
      + destruct (Nat.leb_spec (S s) c), (Nat.leb_spec s c),
                 (Nat.ltb_spec c (S s + n)), (Nat.ltb_spec c (s + S n));
          cbn [andb]; try reflexivity; lia. }
  assert (Hall : forall s n : nat,
            filter (fun rc : nat * nat =>
                      (Nat.eqb (fst rc) r && Nat.eqb (snd rc) c)%bool)
                   (flat_map (fun row => map (fun col => (row, col))
                                             (seq 0 cols0))
                             (seq s n))
            = if (Nat.leb s r && Nat.ltb r (s + n))%bool
              then [(r, c)] else []).
  { intros s n. revert s.
    induction n as [|n IH]; intros s; cbn [seq flat_map].
    - destruct (Nat.leb_spec s r), (Nat.ltb_spec r (s + 0));
        cbn [andb filter]; try reflexivity; lia.
    - rewrite filter_app, Hrow, IH.
      destruct (Nat.ltb_spec c (0 + cols0)); [|lia].
      destruct (Nat.leb_spec 0 c); [|lia].
      destruct (Nat.eqb_spec s r) as [Hs|Hs];
        destruct (Nat.leb_spec (S s) r), (Nat.leb_spec s r),
                 (Nat.ltb_spec r (S s + n)), (Nat.ltb_spec r (s + S n));
        cbn [andb app]; try reflexivity; lia. }
  rewrite Hall. destruct (Nat.ltb_spec r (0 + rows0)); [|lia].
  reflexivity.
Qed.

Lemma points_single_update_witness :
  points (snd (update (new 5 5 1 origin0) (Z.of_nat 2) (Z.of_nat 3) 0.9))
         0.6
  = [Point2.mk (INR 3) (INR 2)].
Proof.
  apply (points_single_update 5 5 1 origin0 2 3 0.9 0.6);
    try lia; try lra.
  unfold ProbabilityToLogOdds, MAX_LOG_ODDS. cbv zeta.
  replace (0.6 / (1.0 - 0.6)) with 1.5 by lra.
  pose proof (ln_lt_id 1.5 ltac:(lra)). lra.
Defined.

Lemma rows_length {A : Type} (g : nat -> nat -> A) (cs : list nat) :
  forall rs : list nat,
    length (flat_map (fun row => map (g row) cs) rs)
    = (length rs * length cs)%nat.
Proof.
  induction rs as [|r rs IH]; [reflexivity|].
  cbn [flat_map length]. rewrite length_app, length_map, IH. lia.
Qed.

Lemma rows_nth {A : Type} (g : nat -> nat -> A) (d : A) (width : nat) :
  forall (n s r c : nat),
    (r < n)%nat -> (c < width)%nat ->
    nth (r * width + c)
        (flat_map (fun row => map (g row) (seq 0 width)) (seq s n)) d
    = g (s + r)%nat c.
Proof.
  induction n as [|n IH]; intros s r c Hr Hc; [lia|].
  cbn [seq flat_map]. destruct r as [|r].
  - rewrite app_nth1 by (rewrite length_map, length_seq; lia).
    cbn [Nat.mul Nat.add].
    rewrite (nth_indep _ d (g s 0%nat))
      by (rewrite length_map, length_seq; lia).
    rewrite map_nth, seq_nth by lia. rewrite Nat.add_0_r. reflexivity.
  - rewrite app_nth2 by (rewrite length_map, length_seq; lia).
    rewrite length_map, length_seq.
    replace (S r * width + c - width)%nat with (r * width + c)%nat by lia.
    rewrite IH by lia. f_equal. lia.
Qed.

Lemma pgm_samples_rows (m : ProbabilityMap) :
  pgm_samples m
  = flat_map
      (fun row =>
         map (fun col =>
                to_unsigned_char
                  (Matrix.coeff (occupancyGrid m)
                     (Z.of_nat row) (Z.of_nat col)))
             (seq 0 (cols m)))
      (seq 0 (rows m)).
Proof.
  unfold pgm_samples. cbv zeta.
  rewrite (scan_fold Z (fun _ _ => true)
             (fun row col =>
                to_unsigned_char
                  (Matrix.coeff (occupancyGrid m)
                     (Z.of_nat row) (Z.of_nat col)))).
  cbn [app]. apply flat_map_ext. intros row. f_equal.
  induction (seq 0 (cols m)) as [|c cs IH]; [reflexivity|].
  cbn [filter]. rewrite IH. reflexivity.
Qed.

(** The image samples: [occupancyGrid(filename)] writes rows * cols
    samples, row after row; the sample at position r * cols + c is the
    value [occupancyGrid()] holds for the cell (r, c), which lies between
    0 and 255, so the cast to [unsigned char] changes nothing. *)
Theorem pgm_samples_row_major (m : ProbabilityMap) (r c : nat) :
  (r < rows m)%nat -> (c < cols m)%nat ->
  length (pgm_samples m) = (rows m * cols m)%nat
  /\ IZR (nth (r * cols m + c) (pgm_samples m) 0%Z)
     = Matrix.coeff (occupancyGrid m) (Z.of_nat r) (Z.of_nat c)
  /\ (0 <= nth (r * cols m + c) (pgm_samples m) 0%Z <= 255)%Z.
Proof.
  intros Hr Hc. rewrite pgm_samples_rows.
  split; [rewrite rows_length, !length_seq; reflexivity|].
  rewrite rows_nth by assumption. cbn [Nat.add].
  assert (Hin : inside m (Z.of_nat r) (Z.of_nat c) = true)
    by (apply inside_iff; lia).
  rewrite occupancyGrid_coeff by exact Hin. rewrite grey_ceil.
  pose proof (LogOddsToProbability_range
                (Matrix.coeff (data_ m) (Z.of_nat r) (Z.of_nat c))) as Hp.
  assert (H : (0 < ceil (255 * LogOddsToProbability
                              (Matrix.coeff (data_ m)
                                 (Z.of_nat r) (Z.of_nat c))) <= 255)%Z)
    by (apply ceil_range; lra).
  unfold to_unsigned_char, to_double. rewrite to_int_IZR.
  rewrite Z.mod_small by lia.
  split; [reflexivity|lia].
Qed.

Lemma pgm_samples_row_major_witness :
  length (pgm_samples map3) = (rows map3 * cols map3)%nat.
Proof.
  apply (pgm_samples_row_major map3 1 2).
  - unfold rows, map3, new. simpl. lia.
  - unfold cols, map3, new. simpl. lia.
Defined.

Lemma ceil_le (v w : R) : v <= w -> (ceil v <= ceil w)%Z.
Proof.
  intros H. destruct (ceil_bounds v) as [Hv1 Hv2].
  destruct (ceil_bounds w) as [Hw1 Hw2].
  destruct (Z_le_gt_dec (ceil v) (ceil w)) as [Hle|Hgt]; [exact Hle|].
  exfalso. assert (H' : IZR (ceil w + 1) <= IZR (ceil v))
    by (apply IZR_le; lia).
  rewrite plus_IZR in H'. lra.
Qed.

(** The export is darker where occupancy is more likely: of two in-bounds
    cells (of one map or of two), the one with the greater log-odds gets a
    grey value that is not greater. *)
Theorem occupancyGrid_antitone (m m' : ProbabilityMap) (r c r' c' : Z) :
  inside m r c = true -> inside m' r' c' = true ->
  Matrix.coeff (data_ m) r c <= Matrix.coeff (data_ m') r' c' ->
  Matrix.coeff (occupancyGrid m') r' c'
  <= Matrix.coeff (occupancyGrid m) r c.
Proof.
  intros Hin Hin' Hle.
  rewrite !occupancyGrid_coeff by assumption. rewrite !grey_ceil.
  unfold to_double. apply IZR_le.
  apply LogOddsToProbability_le in Hle.
  assert (H : (ceil (255 * LogOddsToProbability (Matrix.coeff (data_ m) r c))
               <= ceil (255 * LogOddsToProbability
                                (Matrix.coeff (data_ m') r' c')))%Z)
    by (apply ceil_le; lra).
  lia.
Qed.

Lemma occupancyGrid_antitone_witness :
  Matrix.coeff (occupancyGrid map_loaded) 0 0
  <= Matrix.coeff (occupancyGrid map3) 1 1.
Proof.
  apply (occupancyGrid_antitone map3 map_loaded 1 1 0 0);
    try reflexivity.
  simpl. lra.
Defined.

(** ** More on line *)

Lemma line_cell_inside (m : ProbabilityMap) (sw ew p : Point2.t) :
  Forall (fun cl => inside m (row cl) (col cl) = true)
         (line_cell m sw ew p).
Proof.
  unfold line_cell. cbv zeta.
  destruct (inside m _ _) eqn:Hin; repeat constructor. exact Hin.
Qed.

Lemma line_loop_inside (m : ProbabilityMap) (sw ew delta : Point2.t) :
  forall (fuel : nat) (cells0 : list LineCell) (point : Point2.t)
         (remaining : R) (cells : list LineCell),
    Forall (fun cl => inside m (row cl) (col cl) = true) cells0 ->
    line_loop m sw ew delta fuel cells0 point remaining = Some cells ->
    Forall (fun cl => inside m (row cl) (col cl) = true) cells.
Proof.
  induction fuel as [|fuel IH]; intros cells0 point remaining cells H0;
    cbn [line_loop]; [discriminate|].
  assert (H1 : Forall (fun cl => inside m (row cl) (col cl) = true)
                 (cells0 ++ line_cell m sw ew point))
    by (apply Forall_app; split; [exact H0|apply line_cell_inside]).
  destruct (Rle_dec remaining 0).
  - intros H. inversion H; subst. exact H1.
  - apply IH. exact H1.
Qed.

(** Whatever [line] returns can be used as it is: every cell of the list
    is inside the map, so [at] and [update] on it do not throw. *)
Theorem line_cells_in_bounds (fuel : nat) (m : ProbabilityMap)
    (sw ew : Point2.t) (cells : list LineCell) (p : R) :
  line fuel m sw ew = Some cells ->
  Forall (fun cl =>
            inside m (row cl) (col cl) = true
            /\ ~ throws (at_ m (row cl) (col cl))
            /\ fst (update m (row cl) (col cl) p) = Ok tt)
         cells.
Proof.
  intros H. rewrite line_unfold in H.
  apply line_loop_inside in H; [|constructor].
  apply Forall_impl with (2 := H). intros cl Hin.
  split; [exact Hin|]. split.
  - rewrite at_throws_iff, Hin. discriminate.
  - apply update_inside_ok. exact Hin.
Qed.

Lemma line_cells_in_bounds_witness :
  Forall (fun cl =>
            inside map3 (row cl) (col cl) = true
            /\ ~ throws (at_ map3 (row cl) (col cl))
            /\ fst (update map3 (row cl) (col cl) 0.9) = Ok tt)
         (flat_map (line_cell map3 beam_start beam_end)
                   (line_walk map3 beam_start beam_end)).
Proof.
  apply (line_cells_in_bounds 5 map3 beam_start beam_end _ 0.9).
  apply line_total. destruct beam_enters_map as [-> _]. lia.
Defined.

Lemma line_length_same_point (m : ProbabilityMap) (p : Point2.t) :
  line_length m p p = 0.
Proof.
  unfold line_length, line_setup. cbv zeta.
  rewrite !Rminus_diag, Rabs_R0.
  destruct (Rlt_dec 0 0); reflexivity.
Qed.

(** A line from a point to itself is the cell of that point: [line]
    returns after one iteration, with that cell when it is inside the map
    and with no cell otherwise. *)
Theorem line_same_point (fuel : nat) (m : ProbabilityMap) (p : Point2.t) :
  option_map (map cell_index) (line (S fuel) m p p)
  = Some (if inside m (fst (cell_of (fromWorld m p)))
                      (snd (cell_of (fromWorld m p)))
          then [cell_of (fromWorld m p)] else []).
Proof.
  assert (Hsteps : line_steps m p p = 0%nat).
  { unfold line_steps. rewrite line_length_same_point.
    rewrite (ceil_eq 0 0) by lra. reflexivity. }
  rewrite line_total by (rewrite Hsteps; lia). cbn [option_map].
  rewrite line_cells_index. unfold line_walk. rewrite Hsteps.
  cbn [seq map]. rewrite line_point_0 by apply line_length_nonneg.
  rewrite line_start_fromWorld. cbn [filter].
  destruct (inside m _ _); reflexivity.
Qed.




(** *** The cells of a line are connected *)



Section FilterChain.

Variables (A : Type) (f : nat -> A) (P : A -> bool) (Rel : A -> A -> Prop).
Variable N : nat.

Hypothesis adjacent : forall k : nat, (S k < N)%nat -> Rel (f k) (f (S k)).
Hypothesis convex :
  forall i j k : nat,
    (i <= j <= k)%nat -> (k < N)%nat ->
    P (f i) = true -> P (f k) = true -> P (f j) = true.



End FilterChain.







(** ** The kernel of smooth *)

Section Kernel.

Variables (m : ProbabilityMap) (sigma : R).

Hypothesis sigma_pos : 0 < sigma.
Hypothesis cell_size_pos : 0 < cell_size_ m.

(** The half width of the kernel, in cells. *)
Variable n : Z.
Hypothesis half_width : n = Int_part (3.0 * (sigma / cell_size_ m)).
Hypothesis fits : (2 * n + 1 < size_t_modulus)%Z.

Lemma half_width_nonneg : (0 <= n)%Z.
Proof.
  assert (H : 0 <= 3.0 * (sigma / cell_size_ m)).
  { apply Rmult_le_pos; [lra|]. left. apply Rdiv_lt_0_compat; assumption. }
  destruct (Int_part_bounds (3.0 * (sigma / cell_size_ m))) as [H1 H2].
  rewrite <- half_width in H1, H2.
  destruct (Z_lt_le_dec n 0) as [Hneg|Hpos]; [exfalso|exact Hpos].
  assert (H' : IZR (n + 1) <= 0) by (apply IZR_le; lia).
  rewrite plus_IZR in H'. lra.
Qed.

Lemma kernel_length_odd : kernel_length m sigma = (2 * n + 1)%Z.
Proof.
  pose proof half_width_nonneg as Hn.
  unfold kernel_length, to_size_t, floor. cbv zeta. rewrite <- half_width.
  replace (2 * IZR n + 1) with (IZR (2 * n + 1))
    by (rewrite plus_IZR, mult_IZR; reflexivity).
  rewrite to_int_IZR. apply Z.mod_small. lia.
Qed.

Lemma kernel_centre : (((2 * n + 1 - 1) mod size_t_modulus) / 2 = n)%Z.
Proof.
  pose proof half_width_nonneg as Hn.
  rewrite Z.mod_small by lia.
  replace (2 * n + 1 - 1)%Z with (n * 2)%Z by lia.
  apply Z.div_mul. lia.
Qed.

Lemma smooth_kernel_nth (i : Z) :
  (0 <= i < 2 * n + 1)%Z ->
  nth (Z.to_nat i) (smooth_kernel m sigma) 0
  = kernel_tap sigma (to_double ((i - n) mod size_t_modulus)%Z).
Proof.
  intros Hi. unfold smooth_kernel. cbv zeta. rewrite kernel_length_odd.
  rewrite (nth_indep _ 0
             (kernel_tap sigma (kernel_offset (2 * n + 1) (Z.of_nat 0))))
    by (rewrite length_map, length_seq; lia).
  rewrite (map_nth (fun i0 => kernel_tap sigma
                                (kernel_offset (2 * n + 1) (Z.of_nat i0)))).
  rewrite seq_nth by lia. cbn [Nat.add]. rewrite Z2Nat.id by lia.
  unfold kernel_offset. rewrite kernel_centre. reflexivity.
Qed.

Lemma kernel_scale_pos : 0 < 1.0 / (sigma * sqrt (2 * PI)).
Proof.
  apply Rdiv_lt_0_compat; [lra|]. apply Rmult_lt_0_compat; [assumption|].
  apply sqrt_lt_R0. pose proof PI_RGT_0. lra.
Qed.

Lemma kernel_tap_le (x y : R) :
  0 <= x <= y -> kernel_tap sigma x <= kernel_tap sigma y.
Proof.
  intros Hxy. unfold kernel_tap.
  apply Rmult_le_compat_l; [left; apply kernel_scale_pos|].
  assert (Hinv : 0 < / (sigma * sigma)) by (apply Rinv_0_lt_compat; nra).
  assert (Hle : x * x / (sigma * sigma) <= y * y / (sigma * sigma)).
  { unfold Rdiv. apply Rmult_le_compat_r; [lra|nra]. }
  destruct Hle as [Hlt|Heq].
  - left. apply exp_increasing. exact Hlt.
  - right. rewrite Heq. reflexivity.
Qed.


(** Left of the centre the offset wraps around: the loop subtracts in
    [size_t], so at distance j to the left the offset it squares is not
    -j but a value of at least 2^63, and the tap there is not smaller than
    any tap from the centre to the right end. *)
Lemma kernel_left_half (j j' : Z) :
  (1 <= j <= n)%Z -> (0 <= j' <= n)%Z ->
  IZR (2 ^ 63) <= kernel_offset (kernel_length m sigma) (n - j)
  /\ nth (Z.to_nat (n + j')) (smooth_kernel m sigma) 0
     <= nth (Z.to_nat (n - j)) (smooth_kernel m sigma) 0.
Proof.
  intros Hj Hj'.
  assert (Hmod : size_t_modulus = (2 * 2 ^ 63)%Z) by reflexivity.
  assert (Hwrap : ((n - j - n) mod size_t_modulus
                   = size_t_modulus - j)%Z).
  { replace (n - j - n)%Z with (size_t_modulus - j + -1 * size_t_modulus)%Z
      by lia.
    rewrite Z.mod_add by (unfold size_t_modulus; lia).
    apply Z.mod_small. lia. }
  split.
  - unfold kernel_offset. rewrite kernel_length_odd, kernel_centre, Hwrap.
    unfold to_double. apply IZR_le. lia.
  - rewrite !smooth_kernel_nth by lia. rewrite Hwrap.
    replace (n + j' - n)%Z with j' by lia.
    rewrite Z.mod_small by lia.
    apply kernel_tap_le. unfold to_double. split; apply IZR_le; lia.
Qed.

End Kernel.


Lemma kernel_left_half_witness :
  IZR (2 ^ 63) <= kernel_offset (kernel_length map3 1) (3 - 1)
  /\ nth (Z.to_nat (3 + 2)) (smooth_kernel map3 1) 0
     <= nth (Z.to_nat (3 - 1)) (smooth_kernel map3 1) 0.
Proof.
  apply (kernel_left_half map3 1); try lia.
  - lra.
  - simpl. lra.
  - symmetry. apply Int_part_eq. simpl. lra.
  - reflexivity.
Defined.
